(** * MachinaMind RAG subsystem: chunking, indexing, persistence, retrieval

    A shallow embedding of the Python listings of the RAG guide
    ([chunk_text], [RAGManager], [_save_index], [_load_index], [setup_rag])
    together with the properties the design document states about them.

    Conventions.
    - Python [str] values are sequences of code points; the embedding keeps
      the code points below 256 ([list ascii]).
    - Python [int] is [Z]; slice and search bounds follow CPython's index
      adjustment, negative values included.
    - Embedding vectors and distances are exact rationals ([Q]), and
      [score_of] is the exact value of the score expression;
      [Binary64.score_of] is its evaluation in machine floats, where
      rounding can merge neighbouring scores.
    - The model is loaded, and the files that exist are read, written and
      parsed without failure; a missing file raises as in the listing.
    - A [while] loop is run with fuel: [None] means that the fuel ran out
      before the loop condition became false. *)

From Stdlib Require Import String Ascii.
From Stdlib Require Import ZArith List Bool Lia.
From Stdlib Require Import QArith Lqa Sorted Permutation.
From Stdlib Require Floats.
Import ListNotations.

Local Open Scope Z_scope.

(** ** Python strings *)

Module PyStr.

Definition str := list ascii.

Definition s2l (s : string) : str := list_ascii_of_string s.

Definition LF : ascii := ascii_of_nat 10.
Definition CR : ascii := ascii_of_nat 13.

Definition len (s : str) : Z := Z.of_nat (length s).

(** [str.isspace] on one code point below 256. *)
Definition is_space (c : ascii) : bool :=
  let n := nat_of_ascii c in
  ((9 <=? n) && (n <=? 13) || (28 <=? n) && (n <=? 32)
   || (n =? 133) || (n =? 160))%nat.

(** Bounds of [s[start:stop]] (PySlice_AdjustIndices, step 1). *)
Definition clamp_slice (n i : Z) : Z :=
  if i <? 0 then Z.max 0 (i + n) else Z.min i n.

Definition slice (s : str) (start stop : Z) : str :=
  let a := clamp_slice (len s) start in
  let b := clamp_slice (len s) stop in
  firstn (Z.to_nat (b - a)) (skipn (Z.to_nat a) s).

Fixpoint is_prefix (p s : str) : bool :=
  match p, s with
  | [], _ => true
  | _ :: _, [] => false
  | a :: p', b :: s' => Ascii.eqb a b && is_prefix p' s'
  end.

Definition starts_at (s : str) (pos : Z) (sub : str) : bool :=
  is_prefix sub (skipn (Z.to_nat pos) s).

(** Highest position in [lo, lo + n) at which [sub] occurs, else -1. *)
Fixpoint rfind_scan (s sub : str) (lo : Z) (n : nat) : Z :=
  match n with
  | O => -1
  | S n' =>
      let pos := lo + Z.of_nat n' in
      if starts_at s pos sub then pos else rfind_scan s sub lo n'
  end.

(** [s.rfind(sub, start, stop)] with the bounds adjusted as CPython's
    ADJUST_INDICES does. *)
Definition rfind (s sub : str) (start stop : Z) : Z :=
  let n := len s in
  let e := if n <? stop then n
           else if stop <? 0 then Z.max 0 (stop + n) else stop in
  let b := if start <? 0 then Z.max 0 (start + n) else start in
  rfind_scan s sub b (Z.to_nat (e - b - len sub + 1)).

Fixpoint lstrip (s : str) : str :=
  match s with
  | c :: s' => if is_space c then lstrip s' else s
  | [] => []
  end.

Definition rstrip (s : str) : str := rev (lstrip (rev s)).

Definition strip (s : str) : str := rstrip (lstrip s).

(** [sep.join(parts)] *)
Fixpoint join (sep : str) (parts : list str) : str :=
  match parts with
  | [] => []
  | [p] => p
  | p :: rest => p ++ sep ++ join sep rest
  end.

(** [s.split(c)] for a one-character separator: never the empty list. *)
Fixpoint split (c : ascii) (s : str) : list str :=
  match s with
  | [] => [[]]
  | x :: s' =>
      if Ascii.eqb x c then [] :: split c s'
      else match split c s' with
           | cur :: rest => (x :: cur) :: rest
           | [] => [[x]]
           end
  end.

End PyStr.

Import PyStr.

(** ** Chunker: [chunk_text] *)

Module Chunker.

(** The sentence terminators, in the order the [for] loop tries them. *)
Definition terminators : list str :=
  [s2l ". "; s2l "! "; s2l "? "; [LF; LF]].

(** The [for char in ...] loop: the first terminator found by [rfind] moves
    the cut to just after its first character; without any, the cut stays. *)
Fixpoint find_boundary (text : str) (seps : list str) (start stop : Z) : Z :=
  match seps with
  | [] => stop
  | sep :: seps' =>
      let pos := rfind text sep start stop in
      if pos =? -1 then find_boundary text seps' start stop else pos + 1
  end.

(** One iteration of the [while] body: the chunk appended and the next
    [start]. *)
Definition chunk_step (text : str) (chunk_size overlap start : Z) : str * Z :=
  let stop := start + chunk_size in
  let stop := if stop <? len text
              then find_boundary text terminators start stop
              else stop in
  (strip (slice text start stop), stop - overlap).

Fixpoint chunk_loop (fuel : nat) (text : str) (chunk_size overlap start : Z)
    (chunks : list str) : option (list str) :=
  if start <? len text then
    match fuel with
    | O => None
    | S fuel' =>
        let (c, start') := chunk_step text chunk_size overlap start in
        chunk_loop fuel' text chunk_size overlap start' (chunks ++ [c])
    end
  else Some chunks.

Definition chunk_text (fuel : nat) (text : str) (chunk_size overlap : Z)
    : option (list str) :=
  chunk_loop fuel text chunk_size overlap 0 [].

End Chunker.

(** ** VectorIndex: the FAISS flat L2 index *)

Module VectorIndex.

Definition Vector := list Q.

(** Modelled from the spec: the index itself is the FAISS library, which the
    repository only calls. "Dimension is fixed once at index creation"; the
    stored vectors are kept in insertion order, so the position of a vector
    is its ordinal. *)
Record FlatL2 := mkFlatL2 { dim : nat; xb : list Vector }.

(** [faiss.IndexFlatL2(d)] *)
Definition IndexFlatL2 (d : nat) : FlatL2 := mkFlatL2 d [].

Definition ntotal (ix : FlatL2) : nat := length (xb ix).

(** Modelled from the spec: "add is append-only and must reject vectors whose
    dimension differs from the index's fixed dimension"; [None] is that
    rejection. *)
Definition add (ix : FlatL2) (vs : list Vector) : option FlatL2 :=
  if forallb (fun v => Nat.eqb (length v) (dim ix)) vs
  then Some (mkFlatL2 (dim ix) (xb ix ++ vs))
  else None.

(** Modelled from the spec: "Distance metric is squared Euclidean (L2)". *)
Fixpoint l2sq (x y : Vector) : Q :=
  match x, y with
  | a :: x', b :: y' => ((a - b) * (a - b) + l2sq x' y')%Q
  | _, _ => 0%Q
  end.

(** A search hit: the ordinal of a stored vector and its distance. *)
Definition hit := (nat * Q)%type.

Fixpoint distances_from (ord : nat) (vs : list Vector) (q : Vector)
    : list hit :=
  match vs with
  | [] => []
  | v :: vs' => (ord, l2sq v q) :: distances_from (S ord) vs' q
  end.

(** Insertion before the first hit that is not closer: among equal
    distances the hit inserted last comes first. *)
Fixpoint insert (h : hit) (l : list hit) : list hit :=
  match l with
  | [] => [h]
  | h' :: l' =>
      if Qle_bool (snd h) (snd h') then h :: l else h' :: insert h l'
  end.

(** Hits are inserted from the highest ordinal down, so that of two equally
    distant hits the one stored first ends up first. *)
Fixpoint rank (l : list hit) : list hit :=
  match l with
  | [] => []
  | h :: l' => insert h (rank l')
  end.

(** Modelled from the spec: "search returns at most k results ordered by
    ascending distance; ties are broken by ascending ordinal (first-inserted
    wins)"; "Searching an empty index returns an empty list". *)
Definition search (ix : FlatL2) (q : Vector) (k : Z) : list hit :=
  firstn (Z.to_nat k) (rank (distances_from 0 (xb ix) q)).

(** [a] ranks before [b]: it is closer, or as close and stored earlier. *)
Definition ranks_before (a b : hit) : Prop :=
  (snd a < snd b)%Q \/ ((snd a == snd b)%Q /\ (fst a < fst b)%nat).

End VectorIndex.

Import VectorIndex.

(** ** RAGManager, its persistence layer and the build driver *)

Module RAG.

(** Per-chunk metadata: a JSON object with string values, in key order. *)
Definition Metadata := list (str * str).

(** One entry of the list [retrieve] returns. *)
Record RetrievalResult := mkResult {
  text : str;
  score : Q;
  meta : Metadata
}.

(** The exceptions the listings can raise. *)
Inductive exn :=
  | AttributeError
  | IndexError
  | TypeError
  | FileNotFoundError
  | EmbeddingUnavailable
  | DimensionMismatch.

Definition result (A : Type) := (A + exn)%type.

(** The attributes of a [RAGManager] object ([store_path] is fixed). *)
Record RAGManager := mkRAG {
  index : option FlatL2;
  documents : list str;
  metadata : list Metadata
}.

(** The directory [store_path]: each of the three files present or not.
    [documents_txt] holds the code points of the file; [faiss_index] and
    [metadata_txt] hold the value their serialisation encodes. *)
Record Store := mkStore {
  faiss_index : option FlatL2;
  documents_txt : option str;
  metadata_txt : option (list Metadata)
}.

Definition empty_store : Store := mkStore None None None.

(** A PDF in the indexed directory: its file name and the text extracted
    from each page. *)
Record PdfFile := mkPdf { name : str; pages : list str }.

(** [f.write(s)] on a file opened in text mode: each line feed becomes the
    platform's line separator. *)
Fixpoint write_text (windows : bool) (s : str) : str :=
  match s with
  | [] => []
  | c :: s' =>
      if Ascii.eqb c LF && windows then CR :: LF :: write_text windows s'
      else c :: write_text windows s'
  end.

(** [f.read()] on a file opened in text mode: universal newlines. *)
Fixpoint read_text (s : str) : str :=
  match s with
  | [] => []
  | c :: s' =>
      if Ascii.eqb c CR then
        match s' with
        | c' :: s'' =>
            if Ascii.eqb c' LF then LF :: read_text s'' else LF :: read_text s'
        | [] => [LF]
        end
      else c :: read_text s'
  end.

(** Score of a hit at distance [d]: the exact value of
    [1.0 / (1.0 + d)]. *)
Definition score_of (d : Q) : Q := (1 / (1 + d))%Q.

(** What [retrieve] assembles for one hit: the text and the metadata stored
    at the hit's ordinal, and the score of the hit's distance. *)
Definition assembled (self : RAGManager) (h : hit) (r : RetrievalResult)
    : Prop :=
  nth_error (documents self) (fst h) = Some (text r)
  /\ nth_error (metadata self) (fst h) = Some (meta r)
  /\ score r = score_of (snd h).

Section Manager.

(** The embedding model, one text at a time; [None] when the model is
    unavailable. *)
Variable embed : str -> option Vector.

(** [self._chunk_text], which the class listing calls once per text without
    defining it: the chunk stored for a text. *)
Variable _chunk_text : str -> str.

(** Whether the platform's line separator is CR LF. *)
Variable windows : bool.

(** [self.model.encode(texts)]: one vector per text. *)
Fixpoint encode (texts : list str) : option (list Vector) :=
  match texts with
  | [] => Some []
  | t :: texts' =>
      match embed t, encode texts' with
      | Some v, Some vs => Some (v :: vs)
      | _, _ => None
      end
  end.

(** [_save_index]: the three files are written one after the other, each
    write succeeding, so the call leaves the three new files; with no index
    [faiss.write_index] raises before any file is written. *)
Definition _save_index (self : RAGManager) (disk : Store) : Store * result unit :=
  match index self with
  | None => (disk, inr TypeError)
  | Some ix =>
      (mkStore (Some ix)
               (Some (write_text windows (join [LF] (documents self))))
               (Some (metadata self)),
       inl tt)
  end.

Definition _load_index (self : RAGManager) (disk : Store)
    : RAGManager * result unit :=
  match faiss_index disk with
  | None => (self, inl tt)
  | Some ix =>
      let self := mkRAG (Some ix) (documents self) (metadata self) in
      match documents_txt disk with
      | None => (self, inr FileNotFoundError)
      | Some d =>
          let self := mkRAG (index self) (split LF (read_text d)) (metadata self) in
          match metadata_txt disk with
          | None => (self, inr FileNotFoundError)
          | Some m => (mkRAG (index self) (documents self) m, inl tt)
          end
      end
  end.

(** [RAGManager()]: the object after [__init__], or the exception of
    [_load_index]; the embedding model is loaded before and is taken to
    load. *)
Definition init (disk : Store) : result RAGManager :=
  match _load_index (mkRAG None [] []) disk with
  | (self, inl _) => inl self
  | (_, inr e) => inr e
  end.

Definition add_documents (self : RAGManager) (disk : Store)
    (texts : list str) (metadatas : list Metadata)
    : RAGManager * Store * result unit :=
  let chunks := map _chunk_text texts in
  match encode chunks with
  | None => (self, disk, inr EmbeddingUnavailable)
  | Some embeddings =>
      let ix := match index self with
                | None => IndexFlatL2 384
                | Some ix => ix
                end in
      match add ix embeddings with
      | None => (mkRAG (Some ix) (documents self) (metadata self), disk,
                 inr DimensionMismatch)
      | Some ix' =>
          let self := mkRAG (Some ix') (documents self ++ chunks)
                            (metadata self ++ metadatas) in
          let (disk', r) := _save_index self disk in
          (self, disk', r)
      end
  end.

Definition retrieve_hit (self : RAGManager) (h : hit) : result RetrievalResult :=
  match nth_error (documents self) (fst h), nth_error (metadata self) (fst h) with
  | Some t, Some m => inl (mkResult t (score_of (snd h)) m)
  | _, _ => inr IndexError
  end.

Fixpoint retrieve_hits (self : RAGManager) (hits : list hit)
    : result (list RetrievalResult) :=
  match hits with
  | [] => inl []
  | h :: hits' =>
      match retrieve_hit self h with
      | inr e => inr e
      | inl r =>
          match retrieve_hits self hits' with
          | inr e => inr e
          | inl rs => inl (r :: rs)
          end
      end
  end.

Definition retrieve (self : RAGManager) (query : str) (top_k : Z)
    : result (list RetrievalResult) :=
  match embed query with
  | None => inr EmbeddingUnavailable
  | Some query_vector =>
      match index self with
      | None => inr AttributeError
      | Some ix => retrieve_hits self (search ix query_vector top_k)
      end
  end.

Fixpoint index_directory (self : RAGManager) (disk : Store)
    (files : list PdfFile) : RAGManager * Store * result unit :=
  match files with
  | [] => (self, disk, inl tt)
  | pdf_file :: files' =>
      let text := join [LF] (pages pdf_file) in
      match add_documents self disk [text] [[(s2l "source", name pdf_file)]] with
      | (self', disk', inl _) => index_directory self' disk' files'
      | failed => failed
      end
  end.

(** [setup_rag()]: [force_reindex] is the presence of [--reindex] on the
    command line, [cwd] the PDFs of the working directory. The manager is
    [None] when the function returns before building one. *)
Definition setup_rag (force_reindex : bool) (cwd : list PdfFile) (disk : Store)
    : option RAGManager * Store * result unit :=
  match cwd with
  | [] => (None, disk, inl tt)
  | _ :: _ =>
      match faiss_index disk, force_reindex with
      | Some _, false => (None, disk, inl tt)
      | _, _ =>
          match init disk with
          | inr e => (None, disk, inr e)
          | inl rag_manager =>
              let '(self, disk', r) := index_directory rag_manager disk cwd in
              (Some self, disk', r)
          end
      end
  end.

(** A call made on a manager after its construction. *)
Inductive op :=
  | AddDocuments (texts : list str) (metadatas : list Metadata)
  | IndexDirectory (files : list PdfFile).

Definition run_op (self : RAGManager) (disk : Store) (o : op)
    : RAGManager * Store * result unit :=
  match o with
  | AddDocuments texts metadatas => add_documents self disk texts metadatas
  | IndexDirectory files => index_directory self disk files
  end.

(** A sequence of calls; the first exception ends it. *)
Fixpoint run_ops (self : RAGManager) (disk : Store) (ops : list op)
    : RAGManager * Store * result unit :=
  match ops with
  | [] => (self, disk, inl tt)
  | o :: ops' =>
      match run_op self disk o with
      | (self', disk', inl _) => run_ops self' disk' ops'
      | failed => failed
      end
  end.

(** The logical entries a call hands over: a text with its metadata. *)
Definition file_entry (f : PdfFile) : str * Metadata :=
  (join [LF] (pages f), [(s2l "source", name f)]).

Definition op_entries (o : op) : list (str * Metadata) :=
  match o with
  | AddDocuments texts metadatas => combine texts metadatas
  | IndexDirectory files => map file_entry files
  end.

(** [add_documents] called with as many metadata objects as texts. *)
Definition paired (o : op) : Prop :=
  match o with
  | AddDocuments texts metadatas => length texts = length metadatas
  | IndexDirectory _ => True
  end.

(** Ordinal alignment: position [i] of the index, of [documents] and of
    [metadata] holds the vector, the chunk and the metadata of entry [i]. *)
Definition represents (entries : list (str * Metadata)) (self : RAGManager)
    : Prop :=
  documents self = map (fun e => _chunk_text (fst e)) entries
  /\ metadata self = map snd entries
  /\ match index self with
     | None => entries = []
     | Some ix => encode (documents self) = Some (xb ix)
     end.

(** The store holds what [_save_index] writes for the manager; before the
    first save both are empty. *)
Definition synced (self : RAGManager) (disk : Store) : Prop :=
  match index self with
  | None => disk = empty_store
  | Some ix =>
      disk = mkStore (Some ix)
               (Some (write_text windows (join [LF] (documents self))))
               (Some (metadata self))
  end.

End Manager.

(** No line feed and no carriage return in a chunk. *)
Definition one_line (s : str) : Prop := ~ In LF s /\ ~ In CR s.

(** [self.index.ntotal], counting an unset index as empty. *)
Definition vector_count (self : RAGManager) : nat :=
  match index self with
  | Some ix => ntotal ix
  | None => 0
  end.

(** The index of a manager, if any, has the dimension [add_documents]
    creates indexes with. *)
Definition index_fits (self : RAGManager) : Prop :=
  forall ix, index self = Some ix -> dim ix = 384%nat.

End RAG.

Import RAG.

(** ** The score expression in machine floats *)

Module Binary64.

Import PrimFloat.

(** [1.0 / (1.0 + d)] evaluated in IEEE binary64, as the interpreter
    evaluates the score line of [retrieve]. *)
Definition score_of (d : float) : float := (1 / (1 + d))%float.


End Binary64.

(** ** The simulator start-up of the architecture notes *)

Module Simulator.

Section Main.

Variable embed : str -> option Vector.
Variable _chunk_text : str -> str.
Variable windows : bool.

(** [for pdf in pdfs: rag_manager.index_directory(".", "*.pdf")]: one pass
    over the whole directory for each PDF found in it. *)
Fixpoint index_each (pdfs : list PdfFile) (self : RAGManager) (disk : Store)
    (cwd : list PdfFile) : RAGManager * Store * result unit :=
  match pdfs with
  | [] => (self, disk, inl tt)
  | _ :: pdfs' =>
      match index_directory embed _chunk_text windows self disk cwd with
      | (self', disk', inl _) => index_each pdfs' self' disk' cwd
      | failed => failed
      end
  end.

(** The [__main__] block of [data_simulator.py] as the architecture notes
    list it, up to the start of the simulation. *)
Definition main (force_reindex : bool) (cwd : list PdfFile) (disk : Store)
    : option RAGManager * Store * result unit :=
  match cwd with
  | [] => (None, disk, inl tt)
  | _ :: _ =>
      match faiss_index disk, force_reindex with
      | Some _, false => (None, disk, inl tt)
      | _, _ =>
          match init disk with
          | inr e => (None, disk, inr e)
          | inl rag_manager =>
              let '(self, disk', r) := index_each cwd rag_manager disk cwd in
              (Some self, disk', r)
          end
      end
  end.

End Main.

End Simulator.

(** ** LLMAgent: [query] *)

Module Agent.

(** [d[k]] on a metadata object; [None] stands for the [KeyError]. *)
Fixpoint dict_get (d : Metadata) (k : str) : option str :=
  match d with
  | [] => None
  | (k', v) :: d' =>
      if list_eq_dec ascii_dec k' k then Some v else dict_get d' k
  end.

(** One element of the [sources] list. *)
Record Source := mkSource {
  source_text : str;
  source_score : Q;
  source_name : str
}.

(** How [query] can end without a result: an exception of [retrieve], a
    failed chat completion, or the [KeyError] of a metadata object without
    ["source"]. *)
Inductive failure :=
  | RetrievalFailed (e : exn)
  | CompletionFailed
  | KeyError.

(** The body of the list comprehension over [rag_docs]. *)
Definition source_of (doc : RetrievalResult) : option Source :=
  match dict_get (meta doc) (s2l "source") with
  | Some n =>
      Some (mkSource (slice (text doc) 0 200 ++ s2l "...") (score doc) n)
  | None => None
  end.

Fixpoint sources_of (rag_docs : list RetrievalResult) : option (list Source) :=
  match rag_docs with
  | [] => Some []
  | doc :: rag_docs' =>
      match source_of doc, sources_of rag_docs' with
      | Some s, Some ss => Some (s :: ss)
      | _, _ => None
      end
  end.

Section Query.

Variable embed : str -> option Vector.

(** The database context handed to [query]. *)
Variable Context : Type.

(** [self._build_prompt], which the listing calls without defining it. *)
Variable _build_prompt : str -> option Context -> list RetrievalResult -> str.

(** The chat completion: the answer text, or [None] when the call raises. *)
Variable complete : str -> option str.

Definition query (rag_manager : RAGManager) (question : str)
    (context : option Context) : (str * list Source) + failure :=
  match retrieve embed rag_manager question 3 with
  | inr e => inr (RetrievalFailed e)
  | inl rag_docs =>
      let prompt := _build_prompt question context rag_docs in
      match complete prompt with
      | None => inr CompletionFailed
      | Some answer =>
          match sources_of rag_docs with
          | None => inr KeyError
          | Some sources => inl (answer, sources)
          end
      end
  end.

End Query.

End Agent.

(** ** The desktop client: data transfer objects and the data model *)

Module Dto.

Inductive Level := Info | Warning | Error | Critical.

(** The value of an enumerator of [Event::Level], as [>=] compares it. *)
Definition level_value (l : Level) : Z :=
  match l with
  | Info => 0
  | Warning => 1
  | Error => 2
  | Critical => 3
  end.

Inductive Role := User | Assistant | System.

Section Time.

(** [QDateTime], of which the model only stores values and compares them. *)
Variable QDateTime : Type.

Record Machine := mkMachine {
  machine_id : Z;
  machine_name : str;
  machine_type : str;
  machine_location : str;
  machine_createdAt : QDateTime
}.

Record Measurement := mkMeasurement {
  meas_id : Z;
  meas_machineId : Z;
  meas_timestamp : QDateTime;
  meas_sensorType : str;
  meas_value : Q;
  meas_unit : str
}.

Record Event := mkEvent {
  event_id : Z;
  event_machineId : Z;
  event_timestamp : QDateTime;
  event_level : Level;
  event_message : str
}.

Record ChatMessage := mkChatMessage {
  chat_role : Role;
  chat_content : str;
  chat_timestamp : QDateTime;
  chat_sources : list str
}.

End Time.

Arguments mkMachine {QDateTime}.
Arguments machine_id {QDateTime}.
Arguments machine_name {QDateTime}.
Arguments machine_type {QDateTime}.
Arguments machine_location {QDateTime}.
Arguments machine_createdAt {QDateTime}.
Arguments mkMeasurement {QDateTime}.
Arguments meas_id {QDateTime}.
Arguments meas_machineId {QDateTime}.
Arguments meas_timestamp {QDateTime}.
Arguments meas_sensorType {QDateTime}.
Arguments meas_value {QDateTime}.
Arguments meas_unit {QDateTime}.
Arguments mkEvent {QDateTime}.
Arguments event_id {QDateTime}.
Arguments event_machineId {QDateTime}.
Arguments event_timestamp {QDateTime}.
Arguments event_level {QDateTime}.
Arguments event_message {QDateTime}.
Arguments mkChatMessage {QDateTime}.
Arguments chat_role {QDateTime}.
Arguments chat_content {QDateTime}.
Arguments chat_timestamp {QDateTime}.
Arguments chat_sources {QDateTime}.

End Dto.

Module DataModel.

Import Dto.

(** A C++ [int] after an increment: two's complement on 32 bits. *)
Definition wrap32 (z : Z) : Z := (z + 2 ^ 31) mod 2 ^ 32 - 2 ^ 31.

Section Model.

Variable QDateTime : Type.

(** [QDateTime()], the value of a default-constructed time stamp. *)
Variable null_time : QDateTime.

(** [std::sort] with the comparator [a.timestamp > b.timestamp] on the
    measurement cache and on the event cache; the order it leaves elements
    with equivalent time stamps in is not specified. *)
Variable sort_measurements :
  list (Measurement QDateTime) -> list (Measurement QDateTime).
Variable sort_events : list (Event QDateTime) -> list (Event QDateTime).

Inductive Signal :=
  | machinesUpdated
  | measurementsUpdated (machineId : Z)
  | eventsUpdated
  | chatMessageAdded (message : ChatMessage QDateTime)
  | selectedMachineChanged (machineId : Z).

(** The members the methods below read or write, and the signals emitted so
    far, oldest first. *)
Record t := mk {
  m_machines : list (Machine QDateTime);
  m_measurementsByMachine : Z -> list (Measurement QDateTime);
  m_events : list (Event QDateTime);
  m_chatHistory : list (ChatMessage QDateTime);
  m_selectedMachineId : Z;
  emitted : list Signal
}.

(** [Machine()], [Measurement()] and [ChatMessage()]. *)
Definition Machine0 : Machine QDateTime := mkMachine 0 [] [] [] null_time.
Definition Measurement0 : Measurement QDateTime :=
  mkMeasurement 0 0 null_time [] 0%Q [].
Definition ChatMessage0 : ChatMessage QDateTime :=
  mkChatMessage User [] null_time [].

Definition emit (s : Signal) (dm : t) : t :=
  mk (m_machines dm) (m_measurementsByMachine dm) (m_events dm)
     (m_chatHistory dm) (m_selectedMachineId dm) (emitted dm ++ [s]).

Definition setMachines (machines : list (Machine QDateTime)) (dm : t) : t :=
  emit machinesUpdated
    (mk machines (m_measurementsByMachine dm) (m_events dm)
        (m_chatHistory dm) (m_selectedMachineId dm) (emitted dm)).

Definition getMachine (id : Z) (dm : t) : Machine QDateTime :=
  match find (fun machine => machine_id machine =? id) (m_machines dm) with
  | Some machine => machine
  | None => Machine0
  end.

(** The inner loop of [addMeasurements]: the first cached measurement with
    the new one's id is overwritten; [None] when there is none. *)
Fixpoint update_existing (existing : list (Measurement QDateTime))
    (newMeasurement : Measurement QDateTime)
    : option (list (Measurement QDateTime)) :=
  match existing with
  | [] => None
  | existing_m :: rest =>
      if meas_id existing_m =? meas_id newMeasurement
      then Some (newMeasurement :: rest)
      else match update_existing rest newMeasurement with
           | Some rest' => Some (existing_m :: rest')
           | None => None
           end
  end.

Definition merge_measurement (existing : list (Measurement QDateTime))
    (newMeasurement : Measurement QDateTime) : list (Measurement QDateTime) :=
  match update_existing existing newMeasurement with
  | Some updated => updated
  | None => existing ++ [newMeasurement]
  end.

Definition addMeasurements (machineId : Z)
    (measurements : list (Measurement QDateTime)) (dm : t) : t :=
  let existing :=
    fold_left merge_measurement measurements
      (m_measurementsByMachine dm machineId) in
  let existing := sort_measurements existing in
  let existing :=
    if (1000 <? length existing)%nat then firstn 1000 existing
    else existing in
  emit (measurementsUpdated machineId)
    (mk (m_machines dm)
        (fun k => if k =? machineId then existing
                  else m_measurementsByMachine dm k)
        (m_events dm) (m_chatHistory dm) (m_selectedMachineId dm)
        (emitted dm)).

Definition str_eqb (a b : str) : bool :=
  if list_eq_dec ascii_dec a b then true else false.

Definition getMeasurements (machineId : Z) (sensorType : str) (dm : t)
    : list (Measurement QDateTime) :=
  let allMeasurements := m_measurementsByMachine dm machineId in
  match sensorType with
  | [] => allMeasurements
  | _ :: _ =>
      filter (fun m => str_eqb (meas_sensorType m) sensorType) allMeasurements
  end.

Definition getLatestMeasurement (machineId : Z) (sensorType : str) (dm : t)
    : Measurement QDateTime :=
  match getMeasurements machineId sensorType dm with
  | [] => Measurement0
  | first :: _ => first
  end.

(** One round of the loop of [addEvents]: an event whose id is cached
    already is dropped. *)
Definition merge_event (cached : list (Event QDateTime))
    (newEvent : Event QDateTime) : list (Event QDateTime) :=
  if existsb (fun existing => event_id existing =? event_id newEvent) cached
  then cached
  else cached ++ [newEvent].

Definition addEvents (events : list (Event QDateTime)) (dm : t) : t :=
  let cached := fold_left merge_event events (m_events dm) in
  let cached := sort_events cached in
  let cached :=
    if (500 <? length cached)%nat then firstn 500 cached else cached in
  emit eventsUpdated
    (mk (m_machines dm) (m_measurementsByMachine dm) cached
        (m_chatHistory dm) (m_selectedMachineId dm) (emitted dm)).

Definition getEvents (machineId : Z) (minLevel : Level) (dm : t)
    : list (Event QDateTime) :=
  filter (fun event =>
            ((machineId <? 0) || (event_machineId event =? machineId))
            && (level_value minLevel <=? level_value (event_level event)))
    (m_events dm).

Definition getCriticalEventCount (machineId : Z) (dm : t) : Z :=
  fold_left
    (fun count event =>
       if ((machineId <? 0) || (event_machineId event =? machineId))
          && match event_level event with
             | Critical | Error => true
             | _ => false
             end
       then wrap32 (count + 1)
       else count)
    (m_events dm) 0.

Definition addChatMessage (message : ChatMessage QDateTime) (dm : t) : t :=
  let history := m_chatHistory dm ++ [message] in
  let history :=
    if (100 <? length history)%nat then tl history else history in
  emit (chatMessageAdded message)
    (mk (m_machines dm) (m_measurementsByMachine dm) (m_events dm) history
        (m_selectedMachineId dm) (emitted dm)).

Definition clearChatHistory (dm : t) : t :=
  emit (chatMessageAdded ChatMessage0)
    (mk (m_machines dm) (m_measurementsByMachine dm) (m_events dm) []
        (m_selectedMachineId dm) (emitted dm)).

Definition setSelectedMachineId (id : Z) (dm : t) : t :=
  if m_selectedMachineId dm =? id then dm
  else emit (selectedMachineChanged id)
         (mk (m_machines dm) (m_measurementsByMachine dm) (m_events dm)
             (m_chatHistory dm) id (emitted dm)).

(** A model as the constructor leaves it. *)
Definition new : t := mk [] (fun _ => []) [] [] (-1) [].

End Model.

End DataModel.

(** ** Sample data for the concrete runs *)

Module Samples.

(** A deterministic stand-in for the embedding model: 384 components, all
    equal to the length of the text. *)
Definition stub_embed (s : str) : option Vector :=
  Some (repeat (Z.of_nat (length s) # 1) 384).

(** The same model, unavailable for the text ["boom"]. *)
Definition flaky_embed (s : str) : option Vector :=
  if list_eq_dec ascii_dec s (s2l "boom") then None else stub_embed s.

(** The chunk [chunk_text] yields for a text that fits one window: the
    stripped text. *)
Definition whole_chunk (s : str) : str := strip s.

Definition two_lines : str := s2l "a" ++ [LF] ++ s2l "b".

Definition old_pdf : PdfFile := mkPdf (s2l "old.pdf") [s2l "old manual"].
Definition new_pdf : PdfFile := mkPdf (s2l "new.pdf") [s2l "new manual"].
Definition bad_pdf : PdfFile := mkPdf (s2l "bad.pdf") [s2l "boom"].

Definition src (n : string) : Metadata := [(s2l "source", s2l n)].

(** The store a first run over [old_pdf] leaves behind. *)
Definition old_store : Store :=
  mkStore (Some (mkFlatL2 384 [repeat (10 # 1) 384]))
          (Some (s2l "old manual"))
          (Some [src "old.pdf"]).

(** The manager [RAGManager()] builds from [old_store]. *)
Definition old_manager : RAGManager :=
  mkRAG (faiss_index old_store) [s2l "old manual"] [src "old.pdf"].

(** A store whose text file has two lines for one vector and one metadata
    object. *)
Definition skewed_store : Store :=
  mkStore (faiss_index old_store) (Some two_lines) (Some [src "old.pdf"]).



(** Two calls: a directory with one PDF, then two texts with their
    metadata. *)
Definition two_calls : list op :=
  [IndexDirectory [old_pdf];
   AddDocuments [s2l "pump"; s2l "valve"] [src "p.txt"; src "v.txt"]].

(** Time stamps as integers, [a > b] on them, and a sort that puts the
    newest element first, standing in for [std::sort]. *)
Definition later (a b : Z) : bool := b <? a.

Fixpoint insert_newest {A : Type} (stamp : A -> Z) (x : A) (l : list A)
    : list A :=
  match l with
  | [] => [x]
  | y :: l' =>
      if stamp y <? stamp x then x :: l else y :: insert_newest stamp x l'
  end.

Definition newest_first {A : Type} (stamp : A -> Z) (l : list A) : list A :=
  fold_right (insert_newest stamp) [] l.

Definition reading (id stamp : Z) (sensor : string)
    : Dto.Measurement Z :=
  Dto.mkMeasurement id 1 stamp (s2l sensor) 0%Q (s2l "C").

Definition alarm (id stamp : Z) (level : Dto.Level) : Dto.Event Z :=
  Dto.mkEvent id 1 stamp level (s2l "alarm").

End Samples.

(** * Properties *)

(** ** Sanity checks of the embedding on small inputs *)

Example chunk_sentences :
  Chunker.chunk_text 10 (s2l "AAAAA. BBBBB. CCCCC.") 10 2
  = Some [s2l "AAAAA."; s2l "A. BBBBB."; s2l "B. CCCCC."; s2l "."].
Proof. reflexivity. Qed.

Example chunk_short_text :
  Chunker.chunk_text 1 Samples.two_lines 500 50
  = Some [Samples.whole_chunk Samples.two_lines].
Proof. reflexivity. Qed.

Example old_store_built :
  index_directory Samples.stub_embed Samples.whole_chunk false
    (mkRAG None [] []) empty_store [Samples.old_pdf]
  = (mkRAG (faiss_index Samples.old_store) [s2l "old manual"]
           [Samples.src "old.pdf"],
     Samples.old_store, inl tt).
Proof. vm_compute. reflexivity. Qed.

(** ** Chunker *)

Section ChunkerFacts.

Import Chunker.

Lemma rfind_scan_range (s sub : str) (lo : Z) (n : nat) :
  rfind_scan s sub lo n = -1
  \/ lo <= rfind_scan s sub lo n < lo + Z.of_nat n.
Proof.
  induction n as [|n IH]; simpl; [now left|].
  destruct (starts_at s (lo + Z.of_nat n) sub); [right; lia|].
  destruct IH as [IH|IH]; [now left | right; lia].
Qed.

(** A match reported by [rfind] lies wholly inside the text. *)
Lemma rfind_inside (s sub : str) (start stop : Z) :
  rfind s sub start stop = -1
  \/ 0 <= rfind s sub start stop /\ rfind s sub start stop + len sub <= len s.
Proof.
  unfold rfind.
  set (n := len s).
  set (e := if n <? stop then n
            else if stop <? 0 then Z.max 0 (stop + n) else stop).
  set (b := if start <? 0 then Z.max 0 (start + n) else start).
  assert (Hn : 0 <= n) by (unfold n, len; lia).
  assert (He : e <= n).
  { unfold e. destruct (Z.ltb_spec n stop); [lia|].
    destruct (Z.ltb_spec stop 0); lia. }
  assert (Hb : 0 <= b).
  { unfold b. destruct (Z.ltb_spec start 0); lia. }
  destruct (rfind_scan_range s sub b (Z.to_nat (e - b - len sub + 1)))
    as [H|H]; [now left|right].
  lia.
Qed.

Lemma find_boundary_cases (text : str) (seps : list str) (start stop : Z) :
  Forall (fun sep => 2 <= len sep) seps ->
  find_boundary text seps start stop = stop
  \/ find_boundary text seps start stop < len text.
Proof.
  induction 1 as [|sep seps Hsep _ IH]; simpl; [now left|].
  destruct (Z.eqb_spec (rfind text sep start stop) (-1)) as [_|Hne]; [exact IH|].
  right. destruct (rfind_inside text sep start stop); lia.
Qed.

Lemma terminators_two_chars : Forall (fun sep => 2 <= len sep) terminators.
Proof. repeat constructor; vm_compute; discriminate. Qed.

(** With [overlap >= chunk_size > 0] the next [start] is again inside the
    text. *)
Lemma chunk_step_stays_inside (text : str) (chunk_size overlap start : Z) :
  0 < chunk_size <= overlap ->
  start < len text ->
  snd (chunk_step text chunk_size overlap start) < len text.
Proof.
  intros Hc Hs. unfold chunk_step. cbn [snd].
  destruct (Z.ltb_spec (start + chunk_size) (len text)); [|lia].
  destruct (find_boundary_cases text terminators start (start + chunk_size)
              terminators_two_chars); lia.
Qed.

Lemma chunk_loop_O (text : str) (chunk_size overlap start : Z)
    (chunks : list str) :
  start < len text ->
  chunk_loop 0 text chunk_size overlap start chunks = None.
Proof.
  intros Hs. simpl. destruct (Z.ltb_spec start (len text)); [reflexivity|lia].
Qed.

Lemma chunk_loop_S (fuel : nat) (text : str) (chunk_size overlap start : Z)
    (chunks : list str) :
  start < len text ->
  chunk_loop (S fuel) text chunk_size overlap start chunks
  = chunk_loop fuel text chunk_size overlap
      (snd (chunk_step text chunk_size overlap start))
      (chunks ++ [fst (chunk_step text chunk_size overlap start)]).
Proof.
  intros Hs. cbn [chunk_loop].
  destruct (Z.ltb_spec start (len text)); [|lia].
  now destruct (chunk_step text chunk_size overlap start).
Qed.

Lemma chunk_loop_never_leaves (text : str) (chunk_size overlap : Z) :
  0 < chunk_size <= overlap ->
  forall fuel start chunks,
    start < len text ->
    chunk_loop fuel text chunk_size overlap start chunks = None.
Proof.
  intros Hc. induction fuel as [|fuel IH]; intros start chunks Hs.
  - now apply chunk_loop_O.
  - rewrite chunk_loop_S by exact Hs.
    apply IH. now apply chunk_step_stays_inside.
Qed.

(** A step that hands back the [start] it was given repeats for ever. *)
Lemma chunk_loop_fixed_start (text : str) (chunk_size overlap start : Z) :
  start < len text ->
  snd (chunk_step text chunk_size overlap start) = start ->
  forall fuel chunks,
    chunk_loop fuel text chunk_size overlap start chunks = None.
Proof.
  intros Hs Hfix. induction fuel as [|fuel IH]; intros chunks.
  - now apply chunk_loop_O.
  - rewrite chunk_loop_S by exact Hs. rewrite Hfix. apply IH.
Qed.

(** A match reported by [rfind] does not start before a non-negative
    [start]. *)
Lemma rfind_from_start (s sub : str) (start stop : Z) :
  0 <= start ->
  rfind s sub start stop = -1 \/ start <= rfind s sub start stop.
Proof.
  intros Hs. unfold rfind.
  destruct (Z.ltb_spec start 0); [lia|].
  match goal with |- context [rfind_scan s sub start ?n] =>
    destruct (rfind_scan_range s sub start n) as [H'|H'] end;
    [now left | right; lia].
Qed.

Lemma find_boundary_after_start (text : str) (seps : list str) (start stop : Z) :
  0 <= start ->
  find_boundary text seps start stop = stop
  \/ start < find_boundary text seps start stop.
Proof.
  intros Hs. induction seps as [|sep seps IH]; simpl; [now left|].
  destruct (Z.eqb_spec (rfind text sep start stop) (-1)) as [_|Hne]; [exact IH|].
  right. destruct (rfind_from_start text sep start stop Hs); lia.
Qed.

(** Without overlap every iteration moves [start] forward, and the loop ends
    within [len(text)] iterations. *)
Lemma chunk_loop_ends_without_overlap (text : str) (chunk_size : Z) :
  0 < chunk_size ->
  forall fuel start chunks,
    0 <= start ->
    len text - start <= Z.of_nat fuel ->
    exists out, chunk_loop fuel text chunk_size 0 start chunks = Some out.
Proof.
  intros Hc. induction fuel as [|fuel IH]; intros start chunks Hs Hf.
  - exists chunks. simpl. destruct (Z.ltb_spec start (len text)); [lia|reflexivity].
  - destruct (Z.lt_ge_cases start (len text)) as [Hlt|Hge].
    + rewrite chunk_loop_S by exact Hlt.
      assert (Hp : start < snd (chunk_step text chunk_size 0 start)).
      { unfold chunk_step. cbn [snd].
        destruct (Z.ltb_spec (start + chunk_size) (len text)); [|lia].
        destruct (find_boundary_after_start text terminators start
                    (start + chunk_size) Hs); lia. }
      apply IH; lia.
    + exists chunks. cbn [chunk_loop].
      destruct (Z.ltb_spec start (len text)); [lia|reflexivity].
Qed.

(** The same with the default [chunk_size = 500] and [overlap = 50]: the
    only terminator of the first window sits at offset [overlap - 1]. *)
Example chunk_defaults_loop :
  let text := repeat "x"%char 49 ++ s2l ". " ++ repeat "y"%char 500 in
  snd (chunk_step text 500 50 0) = 0
  /\ forall fuel, chunk_text fuel text 500 50 = None.
Proof.
  cbv zeta. split; [vm_compute; reflexivity|].
  intros fuel. unfold chunk_text.
  apply chunk_loop_fixed_start; vm_compute; reflexivity.
Qed.

(** C9. With [chunk_size = 5] and [overlap = 1] (so [chunk_size > 0] and
    [0 <= overlap < chunk_size]) the text [". abcdefg"] makes the loop cut at
    the terminator found at position 0, append ["."] and come back to
    [start = 0]: no amount of fuel lets [chunk_text] return. *)
Theorem chunk_text_sentence_cut_loops :
  chunk_step (s2l ". abcdefg") 5 1 0 = (s2l ".", 0)
  /\ forall fuel, chunk_text fuel (s2l ". abcdefg") 5 1 = None.
Proof.
  split; [reflexivity|].
  intros fuel. unfold chunk_text.
  apply chunk_loop_fixed_start; reflexivity.
Qed.

(** C10. For a non-empty text and [overlap >= chunk_size > 0] the loop
    raises nothing and never ends: [start] stays below [len(text)] whatever
    the number of iterations. *)
Theorem chunk_text_overlap_ge_size_loops (text : str) (chunk_size overlap : Z) :
  text <> [] ->
  0 < chunk_size ->
  chunk_size <= overlap ->
  forall fuel, chunk_text fuel text chunk_size overlap = None.
Proof.
  intros Ht Hc Ho fuel. unfold chunk_text.
  apply chunk_loop_never_leaves; [lia|].
  destruct text; [congruence|]. unfold len. simpl. lia.
Qed.

Lemma chunk_text_overlap_ge_size_loops_witness :
  s2l "abc" <> [] /\ 0 < 5 /\ 5 <= 5
  /\ forall fuel, chunk_text fuel (s2l "abc") 5 5 = None.
Proof.
  repeat split; try discriminate; try lia.
  apply (chunk_text_overlap_ge_size_loops (s2l "abc") 5 5);
    [discriminate | lia | lia].
Defined.

End ChunkerFacts.

(** ** VectorIndex *)

Section VectorIndexFacts.

Lemma ranks_before_le (a b : hit) : ranks_before a b -> (snd a <= snd b)%Q.
Proof.
  intros [H|[H _]]; [now apply Qlt_le_weak | rewrite H; apply Qle_refl].
Qed.

Lemma le_ranks_before (a b : hit) :
  (snd a <= snd b)%Q -> (fst a < fst b)%nat -> ranks_before a b.
Proof.
  intros Hle Hord. destruct (Qle_lt_or_eq _ _ Hle) as [H|H];
    [now left | right; now split].
Qed.

Lemma insert_In (h x : hit) (l : list hit) :
  In x (insert h l) <-> x = h \/ In x l.
Proof.
  induction l as [|h' l IH]; simpl.
  - intuition.
  - destruct (Qle_bool (snd h) (snd h')); simpl; rewrite ?IH; intuition.
Qed.

Lemma rank_In (x : hit) (l : list hit) : In x (rank l) <-> In x l.
Proof.
  induction l as [|h l IH]; simpl; [tauto|].
  rewrite insert_In, IH. intuition.
Qed.

Lemma insert_length (h : hit) (l : list hit) :
  length (insert h l) = S (length l).
Proof.
  induction l as [|h' l IH]; simpl; [reflexivity|].
  destruct (Qle_bool (snd h) (snd h')); simpl; congruence.
Qed.

Lemma rank_length (l : list hit) : length (rank l) = length l.
Proof.
  induction l as [|h l IH]; simpl; [reflexivity|].
  now rewrite insert_length, IH.
Qed.

Lemma distances_from_length (o : nat) (vs : list Vector) (q : Vector) :
  length (distances_from o vs q) = length vs.
Proof.
  revert o. induction vs as [|v vs IH]; intros o; simpl; [reflexivity|].
  now rewrite IH.
Qed.

(** The hits listed for an index are exactly its (ordinal, distance)
    pairs. *)
Lemma distances_from_In (o : nat) (vs : list Vector) (q : Vector) (x : hit) :
  In x (distances_from o vs q)
  <-> exists i v, nth_error vs i = Some v /\ x = ((o + i)%nat, l2sq v q).
Proof.
  revert o. induction vs as [|v vs IH]; intros o; simpl.
  - split; [tauto|]. intros (i & w & H & _). now destruct i.
  - rewrite IH. split.
    + intros [H|(i & w & H & ->)].
      * exists 0%nat, v. rewrite Nat.add_0_r. now split.
      * exists (S i), w. split; [exact H|]. f_equal. lia.
    + intros (i & w & H & ->). destruct i as [|i]; simpl in H.
      * left. inversion H. now rewrite Nat.add_0_r.
      * right. exists i, w. split; [exact H|]. f_equal. lia.
Qed.

Lemma insert_sorted (h : hit) (l : list hit) :
  StronglySorted ranks_before l ->
  Forall (fun x => (fst h < fst x)%nat) l ->
  StronglySorted ranks_before (insert h l).
Proof.
  induction 1 as [|h' l Hs IH Hall]; intros Hord; simpl.
  - repeat constructor.
  - inversion Hord as [|? ? Hh' Hl]; subst.
    destruct (Qle_bool (snd h) (snd h')) eqn:E.
    + apply Qle_bool_iff in E.
      constructor; [now constructor|].
      constructor; [now apply le_ranks_before|].
      rewrite Forall_forall in *. intros x Hx.
      apply le_ranks_before; [|now apply Hl].
      eapply Qle_trans; [exact E|]. apply ranks_before_le. now apply Hall.
    + constructor; [now apply IH|].
      rewrite Forall_forall in *. intros x Hx.
      apply insert_In in Hx. destruct Hx as [->|Hx]; [|now apply Hall].
      left. apply Qnot_le_lt. intros Hle.
      apply Qle_bool_iff in Hle. congruence.
Qed.

Lemma rank_distances_sorted (o : nat) (vs : list Vector) (q : Vector) :
  StronglySorted ranks_before (rank (distances_from o vs q)).
Proof.
  revert o. induction vs as [|v vs IH]; intros o; simpl; [constructor|].
  apply insert_sorted; [apply IH|].
  rewrite Forall_forall. intros x Hx.
  apply rank_In, distances_from_In in Hx.
  destruct Hx as (i & w & _ & ->). simpl. lia.
Qed.

Lemma firstn_In {A : Type} (n : nat) (l : list A) (x : A) :
  In x (firstn n l) -> In x l.
Proof.
  intros Hx. rewrite <- (firstn_skipn n l). apply in_or_app. now left.
Qed.

Lemma firstn_sorted {A : Type} (R : A -> A -> Prop) (n : nat) (l : list A) :
  StronglySorted R l -> StronglySorted R (firstn n l).
Proof.
  intros Hs. revert n. induction Hs as [|a l Hs IH Hall]; intros [|n]; simpl;
    try constructor; [apply IH|].
  rewrite Forall_forall in *. intros x Hx.
  apply Hall. eapply firstn_In; exact Hx.
Qed.

Lemma sorted_nth {A : Type} (R : A -> A -> Prop) (l : list A) :
  StronglySorted R l ->
  forall i j a b, (i < j)%nat ->
    nth_error l i = Some a -> nth_error l j = Some b -> R a b.
Proof.
  induction 1 as [|x l Hs IH Hall]; intros i j a b Hij Ha Hb.
  - now destruct i.
  - destruct j as [|j]; [lia|]. simpl in Hb.
    destruct i as [|i]; simpl in Ha.
    + inversion Ha; subst. rewrite Forall_forall in Hall.
      apply Hall. eapply nth_error_In; exact Hb.
    + eapply IH; [|exact Ha|exact Hb]. lia.
Qed.

Lemma search_sorted (ix : FlatL2) (q : Vector) (k : Z) :
  StronglySorted ranks_before (search ix q k).
Proof. apply firstn_sorted, rank_distances_sorted. Qed.

Lemma search_length (ix : FlatL2) (q : Vector) (k : Z) :
  length (search ix q k) = Nat.min (Z.to_nat k) (ntotal ix).
Proof.
  unfold search, ntotal.
  now rewrite length_firstn, rank_length, distances_from_length.
Qed.

Lemma search_In (ix : FlatL2) (q : Vector) (k : Z) (h : hit) :
  In h (search ix q k) ->
  exists v, nth_error (xb ix) (fst h) = Some v /\ snd h = l2sq v q.
Proof.
  unfold search. intros Hin. apply firstn_In in Hin.
  apply rank_In, distances_from_In in Hin.
  destruct Hin as (i & v & Hv & ->). exists v. now split.
Qed.

(** C8. [search] returns at most [k] hits (none for [k <= 0]), each the
    ordinal of a stored vector with its squared distance to the query; the
    hits come in ascending distance, and of two hits at the same distance the
    one with the smaller ordinal comes first. *)
Theorem search_ranked (ix : FlatL2) (q : Vector) (k : Z) :
  Z.of_nat (length (search ix q k)) <= Z.max 0 k
  /\ length (search ix q k) = Nat.min (Z.to_nat k) (ntotal ix)
  /\ (forall h, In h (search ix q k) ->
        exists v, nth_error (xb ix) (fst h) = Some v /\ snd h = l2sq v q)
  /\ (forall i j a b, (i < j)%nat ->
        nth_error (search ix q k) i = Some a ->
        nth_error (search ix q k) j = Some b ->
        (snd a <= snd b)%Q /\ ((snd a == snd b)%Q -> (fst a < fst b)%nat)).
Proof.
  split; [rewrite search_length; lia|].
  split; [apply search_length|].
  split; [apply search_In|].
  intros i j a b Hij Ha Hb.
  pose proof (sorted_nth _ _ (search_sorted ix q k) i j a b Hij Ha Hb) as Hr.
  split; [now apply ranks_before_le|].
  intros Heq. destruct Hr as [Hlt|[_ Hord]]; [|exact Hord].
  rewrite Heq in Hlt. now apply Qlt_irrefl in Hlt.
Qed.

End VectorIndexFacts.

(** ** Retriever: distances and scores *)

Section ScoreFacts.

Local Open Scope Q_scope.

Lemma Qsquare_nonneg (x : Q) : 0 <= x * x.
Proof.
  destruct (Qlt_le_dec x 0) as [Hneg|Hpos].
  - setoid_replace (x * x) with ((- x) * (- x)) by ring.
    apply Qmult_le_0_compat; lra.
  - now apply Qmult_le_0_compat.
Qed.

Lemma l2sq_nonneg (x y : Vector) : 0 <= l2sq x y.
Proof.
  revert y. induction x as [|a x IH]; intros [|b y]; simpl;
    try apply Qle_refl.
  specialize (IH y).
  pose proof (Qsquare_nonneg (a - b)) as H.
  lra.
Qed.

Lemma l2sq_same (x : Vector) : l2sq x x == 0.
Proof.
  induction x as [|a x IH]; simpl; [reflexivity|]. rewrite IH. ring.
Qed.


(** The exact value of the score. Being 1 only at distance 0 and decreasing
    strictly are facts of the exact value; rounding keeps the bounds, the
    value 1 at distance 0 and the weak monotonicity. *)
Lemma score_of_unfold (d : Q) : score_of d == / (1 + d).
Proof. unfold score_of, Qdiv. apply Qmult_1_l. Qed.


Lemma score_of_one_iff (d : Q) : 0 <= d -> (score_of d == 1 <-> d == 0).
Proof.
  intros Hd. split.
  - intros H1.
    assert (Hm : (1 + d) * score_of d == 1).
    { unfold score_of. apply Qmult_div_r. lra. }
    rewrite H1 in Hm. lra.
  - intros H0. rewrite score_of_unfold, H0. reflexivity.
Qed.



End ScoreFacts.

Section RetrieverFacts.

Variable embed : str -> option Vector.

Lemma retrieve_hits_assembled (self : RAGManager) (hits : list hit) :
  forall results,
    retrieve_hits self hits = inl results ->
    Forall2 (assembled self) hits results.
Proof.
  induction hits as [|h hits IH]; simpl; intros results Hr.
  - inversion Hr. constructor.
  - unfold retrieve_hit in Hr.
    destruct (nth_error (documents self) (fst h)) as [t|] eqn:Ht;
      [|discriminate].
    destruct (nth_error (metadata self) (fst h)) as [m|] eqn:Hm;
      [|discriminate].
    destruct (retrieve_hits self hits) as [rs|e]; [|discriminate].
    inversion Hr; subst. constructor; [|now apply IH].
    repeat split; assumption.
Qed.

Lemma retrieve_hits_total (self : RAGManager) (hits : list hit) :
  Forall (fun h => (fst h < length (documents self))%nat
                   /\ (fst h < length (metadata self))%nat) hits ->
  exists results, retrieve_hits self hits = inl results.
Proof.
  induction 1 as [|h hits [Hd Hm] _ [rs IH]]; simpl; [now eexists|].
  unfold retrieve_hit.
  apply nth_error_Some in Hd, Hm.
  destruct (nth_error (documents self) (fst h)); [|congruence].
  destruct (nth_error (metadata self) (fst h)); [|congruence].
  rewrite IH. now eexists.
Qed.

Lemma sorted_head {A : Type} (R : A -> A -> Prop) (h x : A) (t : list A) :
  StronglySorted R (h :: t) -> In x (h :: t) -> x = h \/ R h x.
Proof.
  intros Hs [->|Hx]; [now left|right].
  inversion Hs as [|? ? _ Hall]; subst.
  rewrite Forall_forall in Hall. now apply Hall.
Qed.

(** With an index in place, nothing stored or nothing asked for gives the
    empty list. *)
Lemma retrieve_nothing_to_return (self : RAGManager) (ix : FlatL2)
    (query : str) (qv : Vector) (top_k : Z) :
  embed query = Some qv ->
  index self = Some ix ->
  ntotal ix = 0%nat \/ top_k <= 0 ->
  retrieve embed self query top_k = inl [].
Proof.
  intros Hq Hix Hnone. unfold retrieve. rewrite Hq, Hix.
  assert (Hlen : length (search ix qv top_k) = 0%nat)
    by (rewrite search_length; lia).
  destruct (search ix qv top_k); [reflexivity|discriminate].
Qed.

(** The first hit of a search that asks for at least one result, when the
    query vector is itself stored at ordinal [j]: a hit at distance zero,
    at the least ordinal that is at distance zero. *)
Lemma search_exact_match_first (ix : FlatL2) (qv : Vector) (k : Z) (j : nat) :
  0 < k ->
  nth_error (xb ix) j = Some qv ->
  exists h rest,
    search ix qv k = h :: rest
    /\ (snd h == 0)%Q /\ (fst h <= j)%nat
    /\ (forall i v, (i < fst h)%nat -> nth_error (xb ix) i = Some v ->
          ~ (l2sq v qv == 0)%Q).
Proof.
  intros Hk Hj. unfold search.
  pose proof (rank_distances_sorted 0 (xb ix) qv) as Hs.
  assert (Hall : forall i v, nth_error (xb ix) i = Some v ->
            In (i, l2sq v qv) (rank (distances_from 0 (xb ix) qv))).
  { intros i v Hv. apply rank_In, distances_from_In. now exists i, v. }
  pose proof (Hall j qv Hj) as Hin.
  destruct (rank (distances_from 0 (xb ix) qv)) as [|h full] eqn:Hfull;
    [destruct Hin|].
  destruct (Z.to_nat k) as [|n] eqn:Hn; [lia|].
  exists h, (firstn n full). split; [reflexivity|].
  assert (Hh : exists v, snd h = l2sq v qv).
  { assert (Hhin : In h (rank (distances_from 0 (xb ix) qv)))
      by (rewrite Hfull; now left).
    apply rank_In, distances_from_In in Hhin.
    destruct Hhin as (i & v & _ & ->). now exists v. }
  destruct Hh as [v0 Hv0].
  pose proof (l2sq_nonneg v0 qv) as Hnn. rewrite <- Hv0 in Hnn.
  pose proof (l2sq_same qv) as Hqq.
  assert (Hzero : (snd h == 0)%Q /\ (fst h <= j)%nat).
  { destruct (sorted_head _ _ _ _ Hs Hin) as [<-|[Hlt|[Heq Hord]]]; simpl in *.
    - split; [exact Hqq|lia].
    - lra.
    - split; [lra|lia]. }
  destruct Hzero as [Hz Hle]. repeat split; try assumption.
  intros i v Hi Hv H0.
  destruct (sorted_head _ _ _ _ Hs (Hall i v Hv)) as [<-|[Hlt|[Heq Hord]]];
    simpl in *; try lia. lra.
Qed.



End RetrieverFacts.

(** ** PersistenceStore: the text format of [documents.txt] *)

Section TextFormatFacts.

Lemma LF_not_CR : Ascii.eqb LF CR = false.
Proof. reflexivity. Qed.

(** Reading back what text mode wrote gives the string written, provided it
    holds no carriage return. *)
Lemma read_write_text (windows : bool) (s : str) :
  ~ In CR s -> read_text (write_text windows s) = s.
Proof.
  induction s as [|c s IH]; intros Hcr; [reflexivity|].
  assert (Hc : Ascii.eqb c CR = false).
  { apply Ascii.eqb_neq. intros ->. apply Hcr. now left. }
  assert (Hs : ~ In CR s) by (intros H; apply Hcr; now right).
  cbn [write_text].
  destruct (Ascii.eqb c LF && windows) eqn:E.
  - apply andb_true_iff in E. destruct E as [E _].
    apply Ascii.eqb_eq in E. subst c.
    cbn. now rewrite IH.
  - cbn [read_text]. rewrite Hc. now rewrite IH.
Qed.

Lemma split_one_line (s : str) : ~ In LF s -> split LF s = [s].
Proof.
  induction s as [|c s IH]; intros Hlf; [reflexivity|]. cbn [split].
  assert (Hc : Ascii.eqb c LF = false).
  { apply Ascii.eqb_neq. intros ->. apply Hlf. now left. }
  rewrite Hc, IH; [reflexivity|]. intros H. apply Hlf. now right.
Qed.

Lemma split_first_line (s rest : str) :
  ~ In LF s -> split LF (s ++ LF :: rest) = s :: split LF rest.
Proof.
  induction s as [|c s IH]; intros Hlf.
  - cbn. reflexivity.
  - cbn [app split].
    assert (Hc : Ascii.eqb c LF = false).
    { apply Ascii.eqb_neq. intros ->. apply Hlf. now left. }
    rewrite Hc, IH; [reflexivity|]. intros H. apply Hlf. now right.
Qed.

(** One chunk per line: splitting the joined chunks gives them back when
    there is at least one chunk and none holds a line feed. *)
Lemma split_join (parts : list str) :
  parts <> [] ->
  Forall (fun p => ~ In LF p) parts ->
  split LF (join [LF] parts) = parts.
Proof.
  intros Hne Hall. revert Hne.
  induction Hall as [|p parts Hp Hall IH]; intros Hne; [now contradiction Hne|].
  destruct parts as [|p' parts].
  - cbn. now apply split_one_line.
  - change (join [LF] (p :: p' :: parts))
      with (p ++ LF :: join [LF] (p' :: parts)).
    rewrite split_first_line by exact Hp.
    rewrite IH; [reflexivity|discriminate].
Qed.

Lemma join_no_CR (parts : list str) :
  Forall (fun p => ~ In CR p) parts -> ~ In CR (join [LF] parts).
Proof.
  induction 1 as [|p parts Hp Hall IH]; [intros []|].
  destruct parts as [|p' parts]; [exact Hp|].
  change (join [LF] (p :: p' :: parts))
    with (p ++ LF :: join [LF] (p' :: parts)).
  intros H. apply in_app_or in H. destruct H as [H|[H|H]].
  - now apply Hp.
  - discriminate H.
  - now apply IH.
Qed.

(** The text round trip of [documents.txt]. *)
Lemma documents_txt_round_trip (windows : bool) (docs : list str) :
  docs <> [] ->
  Forall one_line docs ->
  split LF (read_text (write_text windows (join [LF] docs))) = docs.
Proof.
  intros Hne Hall.
  rewrite read_write_text.
  - apply split_join; [exact Hne|].
    eapply Forall_impl; [|exact Hall]. now intros p [H _].
  - apply join_no_CR.
    eapply Forall_impl; [|exact Hall]. now intros p [_ H].
Qed.

End TextFormatFacts.

(** ** RAGManager: ingestion and persistence *)

Section ManagerFacts.

Variable embed : str -> option Vector.
Variable _chunk_text : str -> str.
Variable windows : bool.

Lemma encode_app (a b : list str) (va vb : list Vector) :
  RAG.encode embed a = Some va ->
  RAG.encode embed b = Some vb ->
  RAG.encode embed (a ++ b) = Some (va ++ vb).
Proof.
  revert va. induction a as [|t a IH]; simpl; intros va Ha Hb.
  - inversion Ha. exact Hb.
  - destruct (embed t) as [v|]; [|discriminate].
    destruct (RAG.encode embed a) as [vs|] eqn:E; [|discriminate].
    inversion Ha; subst. now rewrite (IH vs eq_refl Hb).
Qed.

Lemma encode_length (a : list str) (va : list Vector) :
  RAG.encode embed a = Some va -> length va = length a.
Proof.
  revert va. induction a as [|t a IH]; simpl; intros va Ha.
  - now inversion Ha.
  - destruct (embed t) as [v|]; [|discriminate].
    destruct (RAG.encode embed a) as [vs|]; [|discriminate].
    inversion Ha; subst. simpl. now rewrite (IH vs eq_refl).
Qed.

(** Aligned arrays have one length. *)
Lemma represents_lengths (entries : list (str * Metadata)) (self : RAGManager) :
  RAG.represents embed _chunk_text entries self ->
  length (metadata self) = length (documents self)
  /\ forall ix, index self = Some ix -> ntotal ix = length (documents self).
Proof.
  intros (Hd & Hm & Hix). split.
  - now rewrite Hd, Hm, !length_map.
  - intros ix E. rewrite E in Hix. unfold ntotal. now apply encode_length.
Qed.

(** What a successful [add_documents] leaves in memory and on disk. *)
Lemma add_documents_ok (self self' : RAGManager) (disk disk' : Store)
    (texts : list str) (metadatas : list Metadata) :
  RAG.add_documents embed _chunk_text windows self disk texts metadatas
    = (self', disk', inl tt) ->
  exists embeddings ix',
    RAG.encode embed (map _chunk_text texts) = Some embeddings
    /\ xb ix' = match index self with
                | None => embeddings
                | Some ix => xb ix ++ embeddings
                end
    /\ self' = mkRAG (Some ix') (documents self ++ map _chunk_text texts)
                 (metadata self ++ metadatas)
    /\ RAG.synced windows self' disk'.
Proof.
  unfold RAG.add_documents.
  destruct (RAG.encode embed (map _chunk_text texts)) as [embeddings|]; [|discriminate].
  set (ix := match index self with None => IndexFlatL2 384 | Some ix => ix end).
  destruct (add ix embeddings) as [ix'|] eqn:Hadd; [|discriminate].
  cbn. intros H. inversion H; subst.
  exists embeddings, ix'. repeat split.
  unfold add in Hadd.
  match type of Hadd with
  | context [forallb ?f ?l] => destruct (forallb f l); [|discriminate]
  end.
  inversion Hadd; subst. unfold ix. cbn.
  now destruct (index self).
Qed.

(** A failing [add_documents] writes nothing and keeps both lists. *)
Lemma add_documents_failed (self self' : RAGManager) (disk disk' : Store)
    (texts : list str) (metadatas : list Metadata) (e : exn) :
  RAG.add_documents embed _chunk_text windows self disk texts metadatas
    = (self', disk', inr e) ->
  disk' = disk
  /\ documents self' = documents self
  /\ metadata self' = metadata self
  /\ (index self' = index self
      \/ index self = None /\ index self' = Some (IndexFlatL2 384))
  /\ (e = EmbeddingUnavailable \/ e = DimensionMismatch).
Proof.
  unfold RAG.add_documents.
  destruct (RAG.encode embed (map _chunk_text texts)) as [embeddings|].
  - set (ix := match index self with None => IndexFlatL2 384 | Some ix => ix end).
    destruct (add ix embeddings) as [ix'|]; cbn; intros H; inversion H; subst.
    repeat split; auto. cbn. unfold ix.
    destruct (index self); [now left | right; now split].
  - intros H. inversion H; subst. repeat split; auto.
Qed.

Lemma map_chunk_combine (texts : list str) (metadatas : list Metadata) :
  length texts = length metadatas ->
  map (fun e => _chunk_text (fst e)) (combine texts metadatas)
    = map _chunk_text texts
  /\ map snd (combine texts metadatas) = metadatas.
Proof.
  revert metadatas. induction texts as [|t texts IH]; intros [|m ms] Hlen;
    simpl in *; try discriminate; [now split|].
  injection Hlen as Hlen. destruct (IH ms Hlen) as [H1 H2].
  now rewrite H1, H2.
Qed.

Lemma add_documents_represents (entries : list (str * Metadata))
    (self self' : RAGManager) (disk disk' : Store)
    (texts : list str) (metadatas : list Metadata) (r : result unit) :
  length texts = length metadatas ->
  RAG.represents embed _chunk_text entries self ->
  RAG.add_documents embed _chunk_text windows self disk texts metadatas
    = (self', disk', r) ->
  (exists entries', RAG.represents embed _chunk_text entries' self')
  /\ (r = inl tt ->
      RAG.represents embed _chunk_text (entries ++ combine texts metadatas) self'
      /\ RAG.synced windows self' disk').
Proof.
  intros Hlen (Hd & Hm & Hix) Hrun. destruct r as [[]|e].
  - destruct (add_documents_ok _ _ _ _ _ _ Hrun)
      as (embeddings & ix' & Henc & Hxb & -> & Hsync).
    destruct (map_chunk_combine texts metadatas Hlen) as [Hc1 Hc2].
    assert (Hrep : RAG.represents embed _chunk_text (entries ++ combine texts metadatas)
                     (mkRAG (Some ix')
                        (documents self ++ map _chunk_text texts)
                        (metadata self ++ metadatas))).
    { unfold RAG.represents. cbn.
      rewrite !map_app, Hc1, Hc2, <- Hd, <- Hm. repeat split.
      rewrite Hxb. destruct (index self) as [ix|].
      - apply encode_app; [exact Hix | exact Henc].
      - subst entries. cbn in Hd. rewrite Hd. exact Henc. }
    split; [eexists; exact Hrep|]. intros _. split; [exact Hrep|exact Hsync].
  - split; [|discriminate]. exists entries.
    destruct (add_documents_failed _ _ _ _ _ _ _ Hrun)
      as (_ & Hd' & Hm' & Hix' & _).
    unfold RAG.represents. rewrite Hd', Hm'. repeat split; try assumption.
    destruct Hix' as [->|[Hnone ->]]; [exact Hix|].
    rewrite Hnone in Hix. subst entries. cbn in Hd. now rewrite Hd.
Qed.

(** A failing [add_documents] keeps the entries the manager holds. *)
Lemma add_documents_keeps_entries (entries : list (str * Metadata))
    (self self' : RAGManager) (disk disk' : Store)
    (texts : list str) (metadatas : list Metadata) (e : exn) :
  RAG.represents embed _chunk_text entries self ->
  RAG.add_documents embed _chunk_text windows self disk texts metadatas
    = (self', disk', inr e) ->
  RAG.represents embed _chunk_text entries self'.
Proof.
  intros (Hd & Hm & Hix) Hrun.
  destruct (add_documents_failed _ _ _ _ _ _ _ Hrun)
    as (_ & Hd' & Hm' & Hix' & _).
  unfold RAG.represents. rewrite Hd', Hm'. repeat split; try assumption.
  destruct Hix' as [->|[Hnone ->]]; [exact Hix|].
  rewrite Hnone in Hix. subst entries. cbn in Hd. now rewrite Hd.
Qed.

(** Whatever the outcome of [index_directory], the manager holds the
    entries it held before followed by those of the files that precede the
    failure, all files when there is none. *)
Lemma index_directory_kept (files : list PdfFile) :
  forall (entries : list (str * Metadata)) (self self' : RAGManager)
         (disk disk' : Store) (r : result unit),
    RAG.represents embed _chunk_text entries self ->
    RAG.synced windows self disk ->
    RAG.index_directory embed _chunk_text windows self disk files = (self', disk', r) ->
    exists done rest,
      files = done ++ rest
      /\ RAG.represents embed _chunk_text (entries ++ map file_entry done) self'
      /\ (r = inl tt -> rest = [] /\ RAG.synced windows self' disk').
Proof.
  induction files as [|f files IH]; intros entries self self' disk disk' r
    Hrep Hsync Hrun.
  - cbn in Hrun. inversion Hrun; subst. exists [], []. cbn.
    rewrite app_nil_r. split; [reflexivity|]. split; [exact Hrep|].
    intros _. now split.
  - cbn [RAG.index_directory] in Hrun.
    destruct (RAG.add_documents embed _chunk_text windows self disk [join [LF] (pages f)]
                [[(s2l "source", name f)]])
      as [[self1 disk1] r1] eqn:Hadd.
    destruct r1 as [[]|e].
    + destruct (add_documents_represents entries self self1 disk disk1
                  [join [LF] (pages f)] [[(s2l "source", name f)]] (inl tt)
                  eq_refl Hrep Hadd)
        as [_ Hok].
      destruct (Hok eq_refl) as [Hrep1 Hsync1].
      destruct (IH _ _ _ _ _ _ Hrep1 Hsync1 Hrun)
        as (done & rest & -> & Hrep' & Hok').
      exists (f :: done), rest. split; [reflexivity|]. split; [|exact Hok'].
      cbn [map]. rewrite <- app_assoc in Hrep'. exact Hrep'.
    + inversion Hrun; subst. exists [], (f :: files). cbn.
      rewrite app_nil_r. split; [reflexivity|]. split; [|discriminate].
      exact (add_documents_keeps_entries _ _ _ _ _ _ _ _ Hrep Hadd).
Qed.

(** The same for a sequence of calls: the manager holds a prefix of the
    entries handed over, cut where the exception was raised. *)
Lemma run_ops_kept (ops : list op) :
  forall (entries : list (str * Metadata)) (self self' : RAGManager)
         (disk disk' : Store) (r : result unit),
    Forall paired ops ->
    RAG.represents embed _chunk_text entries self ->
    RAG.synced windows self disk ->
    RAG.run_ops embed _chunk_text windows self disk ops = (self', disk', r) ->
    exists kept rest,
      concat (map op_entries ops) = kept ++ rest
      /\ RAG.represents embed _chunk_text (entries ++ kept) self'
      /\ (r = inl tt -> rest = [] /\ RAG.synced windows self' disk').
Proof.
  induction ops as [|o ops IH]; intros entries self self' disk disk' r
    Hops Hrep Hsync Hrun.
  - cbn in Hrun. inversion Hrun; subst. exists [], []. cbn.
    rewrite app_nil_r. split; [reflexivity|]. split; [exact Hrep|].
    intros _. now split.
  - inversion Hops as [|? ? Ho Hops']; subst.
    cbn [RAG.run_ops] in Hrun.
    destruct (RAG.run_op embed _chunk_text windows self disk o)
      as [[self1 disk1] r1] eqn:Hop.
    assert (Hstep : exists kept rest,
              op_entries o = kept ++ rest
              /\ RAG.represents embed _chunk_text (entries ++ kept) self1
              /\ (r1 = inl tt -> rest = [] /\ RAG.synced windows self1 disk1)).
    { destruct o as [texts metadatas|files]; cbn in Hop, Ho |- *.
      - destruct r1 as [[]|e].
        + destruct (add_documents_represents entries self self1 disk disk1
                      texts metadatas (inl tt) Ho Hrep Hop) as [_ Hok].
          destruct (Hok eq_refl) as [Hrep1 Hsync1].
          exists (combine texts metadatas), []. rewrite app_nil_r.
          split; [reflexivity|]. split; [exact Hrep1|]. intros _. now split.
        + exists [], (combine texts metadatas). rewrite app_nil_r.
          split; [reflexivity|]. split; [|discriminate].
          exact (add_documents_keeps_entries _ _ _ _ _ _ _ _ Hrep Hop).
      - destruct (index_directory_kept files entries self self1 disk disk1 r1
                    Hrep Hsync Hop) as (done & rest & -> & Hrep1 & Hok1).
        exists (map file_entry done), (map file_entry rest).
        rewrite map_app. split; [reflexivity|]. split; [exact Hrep1|].
        intros Hr. destruct (Hok1 Hr) as [-> Hsync1]. now split. }
    destruct Hstep as (kept1 & rest1 & Hsplit & Hrep1 & Hok1).
    cbn [map concat]. rewrite Hsplit.
    destruct r1 as [[]|e].
    + destruct (Hok1 eq_refl) as [-> Hsync1].
      destruct (IH _ _ _ _ _ _ Hops' Hrep1 Hsync1 Hrun)
        as (kept & rest & -> & Hrep' & Hok').
      exists (kept1 ++ kept), rest. rewrite app_nil_r, app_assoc.
      split; [reflexivity|]. split; [|exact Hok'].
      rewrite app_assoc. exact Hrep'.
    + inversion Hrun; subst.
      exists kept1, (rest1 ++ concat (map op_entries ops)).
      rewrite app_assoc. split; [reflexivity|]. split; [exact Hrep1|discriminate].
Qed.

(** Constructing a manager on the store a synced manager wrote gives that
    manager back, when no chunk holds a line break and the manager either
    holds at least one chunk or has never been saved. *)
Lemma init_synced (entries : list (str * Metadata)) (self : RAGManager)
    (disk : Store) :
  RAG.represents embed _chunk_text entries self ->
  RAG.synced windows self disk ->
  (documents self <> [] \/ index self = None) ->
  Forall one_line (documents self) ->
  init disk = inl self.
Proof.
  intros (Hd & Hm & Hix) Hsync Hne Hlines.
  destruct self as [[ix|] docs ms]; cbn in *.
  - subst disk. unfold init, _load_index. cbn.
    destruct Hne as [Hne|]; [|discriminate].
    now rewrite documents_txt_round_trip.
  - subst disk entries. cbn in *. now subst.
Qed.

(** [index_directory] only ever appends to the two lists. *)
Lemma index_directory_appends (files : list PdfFile) :
  forall (self self' : RAGManager) (disk disk' : Store) (r : result unit),
    RAG.index_directory embed _chunk_text windows self disk files = (self', disk', r) ->
    exists chunks metas,
      documents self' = documents self ++ chunks
      /\ metadata self' = metadata self ++ metas.
Proof.
  induction files as [|f files IH]; intros self self' disk disk' r Hrun.
  - cbn in Hrun. inversion Hrun; subst. exists [], []. now rewrite !app_nil_r.
  - cbn [RAG.index_directory] in Hrun.
    destruct (RAG.add_documents embed _chunk_text windows self disk
                [join [LF] (pages f)] [[(s2l "source", name f)]])
      as [[self1 disk1] r1] eqn:Hadd.
    destruct r1 as [[]|e].
    + destruct (add_documents_ok _ _ _ _ _ _ Hadd)
        as (embeddings & ix' & _ & _ & -> & _).
      destruct (IH _ _ _ _ _ Hrun) as (chunks & metas & Hd & Hm).
      cbn in Hd, Hm. rewrite <- app_assoc in Hd, Hm.
      eexists. eexists. split; [exact Hd|exact Hm].
    + inversion Hrun; subst.
      destruct (add_documents_failed _ _ _ _ _ _ _ Hadd)
        as (_ & Hd & Hm & _).
      exists [], []. now rewrite !app_nil_r.
Qed.

(** A forced [setup_rag] over a non-empty directory keeps whatever the
    constructor loaded from the store in front of what it indexes. *)
Lemma setup_rag_force_keeps_loaded (f : PdfFile) (files : list PdfFile)
    (disk disk' : Store) (loaded : RAGManager) (m : option RAGManager)
    (r : result unit) :
  init disk = inl loaded ->
  RAG.setup_rag embed _chunk_text windows true (f :: files) disk = (m, disk', r) ->
  exists self chunks metas,
    m = Some self
    /\ documents self = documents loaded ++ chunks
    /\ metadata self = metadata loaded ++ metas.
Proof.
  intros Hinit Hrun. unfold RAG.setup_rag in Hrun. rewrite Hinit in Hrun.
  destruct (RAG.index_directory embed _chunk_text windows loaded disk (f :: files))
    as [[self d1] r1] eqn:Hbuild.
  destruct (index_directory_appends _ _ _ _ _ _ Hbuild)
    as (chunks & metas & Hd & Hm).
  exists self, chunks, metas.
  destruct (faiss_index disk); inversion Hrun; subst; auto.
Qed.

(** C1 (amended). Starting from a new manager on an empty store, after any
    sequence of [index_directory] calls and of [add_documents] calls that
    pass as many metadata objects as texts, whether or not the sequence ends
    in an exception: the index, [documents] and [metadata] have one length,
    and position [i] of each holds the vector, the chunk and the metadata of
    entry [i] of the entries handed over, in order, up to the point where
    the exception cut the sequence short. When every call succeeded these
    are all the entries handed over; and if the manager then holds at least
    one chunk and no chunk contains a line feed or a carriage return,
    constructing a manager from the store gives the same three arrays. *)
Theorem alignment_of_paired_calls (ops : list op) (self : RAGManager)
    (disk : Store) (r : result unit) :
  Forall paired ops ->
  RAG.run_ops embed _chunk_text windows (mkRAG None [] []) empty_store ops
    = (self, disk, r) ->
  (exists kept rest,
     concat (map op_entries ops) = kept ++ rest
     /\ RAG.represents embed _chunk_text kept self
     /\ (r = inl tt -> rest = []))
  /\ length (metadata self) = length (documents self)
  /\ (forall ix, index self = Some ix -> ntotal ix = length (documents self))
  /\ (r = inl tt ->
      RAG.represents embed _chunk_text (concat (map op_entries ops)) self
      /\ (documents self <> [] -> Forall one_line (documents self) ->
          init disk = inl self)).
Proof.
  intros Hops Hrun.
  assert (H0 : RAG.represents embed _chunk_text [] (mkRAG None [] []))
    by (now repeat split).
  assert (S0 : RAG.synced windows (mkRAG None [] []) empty_store)
    by reflexivity.
  destruct (run_ops_kept ops [] _ _ _ _ _ Hops H0 S0 Hrun)
    as (kept & rest & Hsplit & Hrep & Hok).
  cbn [app] in Hrep.
  destruct (represents_lengths _ _ Hrep) as [Hlen Hix].
  split.
  { exists kept, rest. split; [exact Hsplit|]. split; [exact Hrep|].
    intros Hr. now destruct (Hok Hr). }
  split; [exact Hlen|]. split; [exact Hix|].
  intros Hr. destruct (Hok Hr) as [-> Hsync].
  rewrite app_nil_r in Hsplit. rewrite Hsplit.
  split; [exact Hrep|]. intros Hne Hlines.
  apply (init_synced _ _ _ Hrep Hsync); [now left | exact Hlines].
Qed.

(** What a successful [index_directory] leaves: one chunk and one metadata
    object per file after those the manager held, and, when there was a
    file, a store that holds exactly the index, the chunk lines and the
    metadata of the manager. *)
Lemma index_directory_done (files : list PdfFile) :
  forall (self self' : RAGManager) (disk disk' : Store),
    RAG.index_directory embed _chunk_text windows self disk files
      = (self', disk', inl tt) ->
    documents self'
    = documents self ++ map (fun f => _chunk_text (join [LF] (pages f))) files
    /\ metadata self'
       = metadata self ++ map (fun f => [(s2l "source", name f)]) files
    /\ (files = [] -> self' = self /\ disk' = disk)
    /\ (files <> [] ->
        exists ix,
          index self' = Some ix
          /\ disk' = mkStore (Some ix)
                       (Some (write_text windows (join [LF] (documents self'))))
                       (Some (metadata self'))).
Proof.
  induction files as [|f files IH]; intros self self' disk disk' Hrun.
  - cbn in Hrun. inversion Hrun; subst. cbn. rewrite !app_nil_r.
    repeat split. congruence.
  - cbn [RAG.index_directory] in Hrun.
    destruct (RAG.add_documents embed _chunk_text windows self disk
                [join [LF] (pages f)] [[(s2l "source", name f)]])
      as [[self1 disk1] r1] eqn:Hadd.
    destruct r1 as [[]|e]; [|discriminate Hrun].
    destruct (add_documents_ok _ _ _ _ _ _ Hadd)
      as (embeddings & ix1 & _ & _ & Hself1 & Hsync1).
    destruct (IH _ _ _ _ Hrun) as (Hd & Hm & Hnil & Hsaved).
    rewrite Hself1 in Hd, Hm. cbn [documents metadata] in Hd, Hm.
    rewrite <- app_assoc in Hd, Hm.
    split; [exact Hd|]. split; [exact Hm|]. split; [discriminate|].
    intros _. destruct files as [|f' files].
    + destruct (Hnil eq_refl) as [-> ->].
      exists ix1. rewrite Hself1 in Hsync1 |- *. split; [reflexivity|].
      exact Hsync1.
    + apply Hsaved. discriminate.
Qed.

(** C5 (amended). [index_directory] saves the store after each file. When it
    ends at some file in an exception of the embedding model or of the
    index's dimension check, the files before it have all been added and
    saved and the failing call has changed neither list nor the store: the
    store is the one a successful run over the preceding files leaves. If no
    file preceded, that is the store as it was; otherwise it holds exactly
    the index, the chunk lines and the metadata of the manager after the
    preceding files. For a manager constructed from the store, the store is
    unchanged exactly when the failure hits the first file. *)
Theorem failed_build_keeps_committed_files (files : list PdfFile)
    (self self' : RAGManager) (disk disk' : Store) (e : exn) :
  RAG.index_directory embed _chunk_text windows self disk files
    = (self', disk', inr e) ->
  e = EmbeddingUnavailable \/ e = DimensionMismatch ->
  exists done failing rest self_done,
    files = done ++ failing :: rest
    /\ RAG.index_directory embed _chunk_text windows self disk done
       = (self_done, disk', inl tt)
    /\ RAG.add_documents embed _chunk_text windows self_done disk'
         [join [LF] (pages failing)] [[(s2l "source", name failing)]]
       = (self', disk', inr e)
    /\ documents self_done
       = documents self
         ++ map (fun f => _chunk_text (join [LF] (pages f))) done
    /\ metadata self_done
       = metadata self ++ map (fun f => [(s2l "source", name f)]) done
    /\ documents self' = documents self_done
    /\ metadata self' = metadata self_done
    /\ (done = [] -> disk' = disk)
    /\ (done <> [] ->
        exists ix,
          index self_done = Some ix
          /\ disk' = mkStore (Some ix)
                       (Some (write_text windows
                                (join [LF] (documents self_done))))
                       (Some (metadata self_done)))
    /\ (init disk = inl self -> (disk' = disk <-> done = [])).
Proof.
  intros Hrun _.
  assert (Hcut : exists done failing rest self_done,
            files = done ++ failing :: rest
            /\ RAG.index_directory embed _chunk_text windows self disk done
               = (self_done, disk', inl tt)
            /\ RAG.add_documents embed _chunk_text windows self_done disk'
                 [join [LF] (pages failing)] [[(s2l "source", name failing)]]
               = (self', disk', inr e)).
  { revert self disk Hrun.
    induction files as [|f files IH]; intros self disk Hrun.
    - discriminate Hrun.
    - cbn [RAG.index_directory] in Hrun.
      destruct (RAG.add_documents embed _chunk_text windows self disk
                  [join [LF] (pages f)] [[(s2l "source", name f)]])
        as [[self1 disk1] r1] eqn:Hadd.
      destruct r1 as [[]|e1].
      + destruct (IH _ _ Hrun)
          as (done & failing & rest & sd & -> & Hdone & Hfail).
        exists (f :: done), failing, rest, sd. split; [reflexivity|].
        split; [|exact Hfail].
        cbn [RAG.index_directory]. now rewrite Hadd.
      + inversion Hrun; subst.
        destruct (add_documents_failed _ _ _ _ _ _ _ Hadd) as (-> & _).
        exists [], f, files, self. repeat split. exact Hadd. }
  destruct Hcut as (done & failing & rest & sd & Hfiles & Hdone & Hfail).
  exists done, failing, rest, sd.
  destruct (index_directory_done _ _ _ _ _ Hdone)
    as (Hd & Hm & Hnil & Hsaved).
  destruct (add_documents_failed _ _ _ _ _ _ _ Hfail)
    as (_ & Hd' & Hm' & _).
  split; [exact Hfiles|]. split; [exact Hdone|]. split; [exact Hfail|].
  split; [exact Hd|]. split; [exact Hm|].
  split; [exact Hd'|]. split; [exact Hm'|].
  split; [intros E; now destruct (Hnil E)|]. split; [exact Hsaved|].
  intros Hinit. split; [|intros E; now destruct (Hnil E)].
  intros Hsame. destruct done as [|f done]; [reflexivity|]. exfalso.
  destruct (Hsaved ltac:(discriminate)) as (ix & _ & Hdisk).
  rewrite Hsame in Hdisk. rewrite Hdisk in Hinit.
  unfold init, _load_index in Hinit. cbn in Hinit.
  inversion Hinit as [Hself]. rewrite <- Hself in Hm. cbn [metadata] in Hm.
  apply (f_equal (@length _)) in Hm.
  rewrite length_app in Hm. cbn [map length] in Hm. lia.
Qed.

(** C4. On a store without [faiss.index] the constructor succeeds and leaves
    the index unset; [retrieve] on that manager then ends in an exception
    for every query and every [top_k]: the attribute error of calling
    [search] on [None], or the embedding failure that precedes it. It never
    returns a list. *)
Theorem retrieve_cold_start_raises (disk : Store) (query : str) (top_k : Z) :
  faiss_index disk = None ->
  init disk = inl (mkRAG None [] [])
  /\ exists e,
       retrieve embed (mkRAG None [] []) query top_k = inr e
       /\ (e = AttributeError \/ e = EmbeddingUnavailable).
Proof.
  intros Hnone. split.
  - unfold init, _load_index. now rewrite Hnone.
  - unfold retrieve. cbn.
    destruct (embed query); eexists; split; try reflexivity; auto.
Qed.

End ManagerFacts.

(** C6 (amended). [_load_index] compares no counts. Whenever the three files
    are present the constructor succeeds and installs the index, the lines of
    [documents.txt] and the metadata array exactly as read, whether or not
    their lengths agree. *)
Theorem load_installs_artifacts_unchecked (ix : FlatL2) (d : str)
    (m : list Metadata) :
  init (mkStore (Some ix) (Some d) (Some m))
  = inl (mkRAG (Some ix) (split LF (read_text d)) m).
Proof. reflexivity. Qed.

(** ** Concrete runs *)

Section Runs.

Import Samples.

Example old_store_loads : init old_store = inl old_manager.
Proof. reflexivity. Qed.

Lemma alignment_of_paired_calls_witness :
  Forall paired two_calls
  /\ exists self disk,
       RAG.run_ops stub_embed whole_chunk false (mkRAG None [] []) empty_store
         two_calls = (self, disk, inl tt)
       /\ length (metadata self) = length (documents self)
       /\ init disk = inl self.
Proof.
  assert (Hp : Forall paired two_calls) by (repeat constructor).
  split; [exact Hp|].
  destruct (RAG.run_ops stub_embed whole_chunk false (mkRAG None [] [])
              empty_store two_calls) as [[self disk] r] eqn:Hrun.
  assert (Hr : r = inl tt /\ documents self <> []
               /\ Forall one_line (documents self)).
  { vm_compute in Hrun. inversion Hrun; subst. split; [reflexivity|].
    split; [discriminate|].
    repeat constructor; cbn; intros H; repeat destruct H as [H|H];
      try discriminate H; exact H. }
  destruct Hr as (-> & Hne & Hlines).
  destruct (alignment_of_paired_calls stub_embed whole_chunk false
              two_calls self disk (inl tt) Hp Hrun)
    as (_ & Hlen & _ & Hok).
  exists self, disk. split; [reflexivity|]. split; [exact Hlen|].
  destruct (Hok eq_refl) as [_ Hinit]. now apply Hinit.
Defined.

(** C1 (counterexample). [add_documents] with two texts and one metadata
    object succeeds and leaves two vectors and two chunks beside one
    metadata object. *)
Lemma add_documents_unpaired_misaligns :
  exists self disk ix,
    RAG.add_documents stub_embed whole_chunk false (mkRAG None [] [])
      empty_store [s2l "a"; s2l "b"] [src "a.pdf"] = (self, disk, inl tt)
    /\ index self = Some ix
    /\ ntotal ix = 2%nat
    /\ length (documents self) = 2%nat
    /\ length (metadata self) = 1%nat.
Proof.
  do 3 eexists. split; [vm_compute; reflexivity|].
  split; [reflexivity|]. now vm_compute.
Qed.

(** C2. A chunk that contains a line feed is written to [documents.txt] as
    it is, so the file has two lines for it: the manager built from the
    store holds two texts for one vector and one metadata object, and the
    same query gets a different result list before and after the reload. *)
Theorem newline_chunk_breaks_round_trip :
  exists self disk self',
    RAG.add_documents stub_embed whole_chunk false (mkRAG None [] [])
      empty_store [two_lines] [src "a.pdf"] = (self, disk, inl tt)
    /\ documents self = [two_lines]
    /\ documents_txt disk = Some two_lines
    /\ init disk = inl self'
    /\ documents self' = [s2l "a"; s2l "b"]
    /\ length (metadata self') = 1%nat
    /\ option_map ntotal (index self') = Some 1%nat
    /\ retrieve stub_embed self (s2l "q") 1
       = inl [mkResult two_lines (score_of (1536 # 1)) (src "a.pdf")]
    /\ retrieve stub_embed self' (s2l "q") 1
       = inl [mkResult (s2l "a") (score_of (1536 # 1)) (src "a.pdf")].
Proof.
  do 3 eexists. split; [vm_compute; reflexivity|].
  repeat split; vm_compute; reflexivity.
Qed.

(** C3. With [--reindex], a store left by a run over [old.pdf] and a working
    directory that now holds only [new.pdf]: the manager is constructed from
    the store before indexing, so the chunk of [old.pdf] stays in the index,
    in memory and on disk. With an empty working directory the store is not
    touched at all. *)
Theorem reindex_keeps_stale_entries :
  (exists self disk,
     setup_rag stub_embed whole_chunk false true [new_pdf] old_store
       = (Some self, disk, inl tt)
     /\ documents self = [s2l "old manual"; s2l "new manual"]
     /\ metadata self = [src "old.pdf"; src "new.pdf"]
     /\ option_map ntotal (index self) = Some 2%nat
     /\ init disk = inl self)
  /\ setup_rag stub_embed whole_chunk false true [] old_store
     = (None, old_store, inl tt).
Proof.
  split; [|reflexivity].
  do 2 eexists. split; [vm_compute; reflexivity|].
  repeat split; vm_compute; reflexivity.
Qed.

Lemma retrieve_cold_start_raises_witness :
  faiss_index empty_store = None
  /\ init empty_store = inl (mkRAG None [] [])
  /\ retrieve stub_embed (mkRAG None [] []) (s2l "pump") 3 = inr AttributeError.
Proof.
  split; [reflexivity|].
  destruct (retrieve_cold_start_raises stub_embed empty_store (s2l "pump") 3
              eq_refl) as [Hinit _].
  split; [exact Hinit | reflexivity].
Defined.

(** C5 (counterexample). A build over [new.pdf] and [bad.pdf] on top of the
    store of an earlier run fails at [bad.pdf] with the embedding model
    unavailable; by then the store no longer holds the earlier artifact set
    but that set extended with [new.pdf]. *)
Lemma failed_build_replaces_previous_store :
  exists self disk,
    RAG.index_directory flaky_embed whole_chunk false old_manager old_store
      [new_pdf; bad_pdf] = (self, disk, inr EmbeddingUnavailable)
    /\ disk <> old_store
    /\ documents_txt disk
       = Some (s2l "old manual" ++ [LF] ++ s2l "new manual")
    /\ metadata_txt disk = Some [src "old.pdf"; src "new.pdf"].
Proof.
  do 2 eexists. split; [vm_compute; reflexivity|].
  split; [|split; reflexivity].
  intros H. apply (f_equal metadata_txt) in H. discriminate H.
Qed.

Lemma failed_build_keeps_committed_files_witness :
  exists self disk,
    RAG.index_directory flaky_embed whole_chunk false old_manager old_store
      [new_pdf; bad_pdf] = (self, disk, inr EmbeddingUnavailable)
    /\ init old_store = inl old_manager
    /\ exists done failing rest self_done,
         [new_pdf; bad_pdf] = done ++ failing :: rest
         /\ RAG.index_directory flaky_embed whole_chunk false old_manager
              old_store done = (self_done, disk, inl tt)
         /\ documents self = documents self_done
         /\ (disk = old_store <-> done = []).
Proof.
  destruct (RAG.index_directory flaky_embed whole_chunk false old_manager
              old_store [new_pdf; bad_pdf]) as [[self disk] r] eqn:Hrun.
  assert (Hr : r = inr EmbeddingUnavailable)
    by (vm_compute in Hrun; now inversion Hrun).
  subst r. exists self, disk. split; [reflexivity|]. split; [reflexivity|].
  destruct (failed_build_keeps_committed_files flaky_embed whole_chunk false
              [new_pdf; bad_pdf] old_manager self old_store disk
              EmbeddingUnavailable Hrun (or_introl eq_refl))
    as (done & failing & rest & sd & Hfiles & Hdone & _ & _ & _ & Hd & _ & _
        & _ & Hiff).
  exists done, failing, rest, sd.
  split; [exact Hfiles|]. split; [exact Hdone|]. split; [exact Hd|].
  apply Hiff. reflexivity.
Defined.

(** C6 (counterexample). A store with one vector, a two-line
    [documents.txt] and one metadata object: the constructor raises nothing
    and the manager holds the three disagreeing arrays. *)
Lemma load_accepts_disagreeing_counts :
  exists self ix,
    init skewed_store = inl self
    /\ index self = Some ix
    /\ ntotal ix = 1%nat
    /\ length (documents self) = 2%nat
    /\ length (metadata self) = 1%nat.
Proof. do 2 eexists. repeat split. Qed.



End Runs.

(** * Further properties of the listings *)

(** ** Chunker: sizes of chunks and the hard-cut regime *)

Section ChunkerSizes.

Import Chunker.

Lemma lstrip_length (s : str) : (length (lstrip s) <= length s)%nat.
Proof.
  induction s as [|c s IH]; simpl; [lia|].
  destruct (is_space c); simpl; lia.
Qed.

Lemma strip_length (s : str) : len (strip s) <= len s.
Proof.
  unfold len, strip, rstrip.
  rewrite length_rev.
  pose proof (lstrip_length (rev (lstrip s))) as H1.
  pose proof (lstrip_length s) as H2.
  rewrite length_rev in H1. lia.
Qed.

Lemma slice_length (s : str) (start stop : Z) :
  len (slice s start stop)
  <= Z.max 0 (clamp_slice (len s) stop - clamp_slice (len s) start).
Proof.
  unfold slice, len at 1.
  pose proof (firstn_le_length
                (Z.to_nat (clamp_slice (len s) stop - clamp_slice (len s) start))
                (skipn (Z.to_nat (clamp_slice (len s) start)) s)) as H.
  lia.
Qed.

(** The window [rfind] searches, after CPython's adjustment of the bounds. *)
Lemma rfind_window (s sub : str) (start stop : Z) :
  rfind s sub start stop = -1
  \/ (if start <? 0 then Z.max 0 (start + len s) else start)
       <= rfind s sub start stop
     /\ rfind s sub start stop + len sub
        <= (if len s <? stop then len s
            else if stop <? 0 then Z.max 0 (stop + len s) else stop).
Proof.
  unfold rfind.
  match goal with |- context [rfind_scan s sub ?b ?n] =>
    destruct (rfind_scan_range s sub b n) as [H|H] end;
    [now left | right; lia].
Qed.

Lemma find_boundary_window (text : str) (seps : list str) (start stop : Z) :
  Forall (fun sep => 2 <= len sep) seps ->
  find_boundary text seps start stop = stop
  \/ exists pos,
       find_boundary text seps start stop = pos + 1
       /\ (if start <? 0 then Z.max 0 (start + len text) else start) <= pos
       /\ pos + 2 <= (if len text <? stop then len text
                      else if stop <? 0 then Z.max 0 (stop + len text)
                           else stop).
Proof.
  induction 1 as [|sep seps Hsep _ IH]; simpl; [now left|].
  destruct (Z.eqb_spec (rfind text sep start stop) (-1)) as [_|Hne]; [exact IH|].
  right. exists (rfind text sep start stop). split; [reflexivity|].
  destruct (rfind_window text sep start stop) as [H|H]; lia.
Qed.

(** No iteration appends more than [chunk_size] characters, wherever
    [start] stands, negative values included. *)
Lemma chunk_step_size (text : str) (chunk_size overlap start : Z) :
  0 <= chunk_size ->
  len (fst (chunk_step text chunk_size overlap start)) <= chunk_size.
Proof.
  intros Hc. unfold chunk_step. cbn [fst].
  assert (Hlen : 0 <= len text) by (unfold len; lia).
  match goal with |- len (strip (slice text start ?e)) <= _ =>
    pose proof (strip_length (slice text start e)) as Hs;
    pose proof (slice_length text start e) as Hl;
    assert (Hb : clamp_slice (len text) e - clamp_slice (len text) start
                 <= chunk_size); [|lia] end.
  destruct (Z.ltb_spec (start + chunk_size) (len text)) as [Hlt|Hge].
  - destruct (find_boundary_window text terminators start (start + chunk_size)
                terminators_two_chars) as [->|(pos & -> & Hlo & Hhi)].
    + unfold clamp_slice.
      destruct (Z.ltb_spec (start + chunk_size) 0), (Z.ltb_spec start 0); lia.
    + unfold clamp_slice.
      destruct (Z.ltb_spec (len text) (start + chunk_size)); [lia|].
      destruct (Z.ltb_spec (start + chunk_size) 0),
               (Z.ltb_spec start 0), (Z.ltb_spec (pos + 1) 0); lia.
  - unfold clamp_slice.
    destruct (Z.ltb_spec (start + chunk_size) 0), (Z.ltb_spec start 0); lia.
Qed.

Lemma chunk_loop_sizes (text : str) (chunk_size overlap : Z) :
  0 <= chunk_size ->
  forall fuel start chunks out,
    Forall (fun c => len c <= chunk_size) chunks ->
    chunk_loop fuel text chunk_size overlap start chunks = Some out ->
    Forall (fun c => len c <= chunk_size) out.
Proof.
  intros Hc. induction fuel as [|fuel IH]; intros start chunks out Hall Hrun.
  - simpl in Hrun. destruct (start <? len text); [discriminate|].
    now inversion Hrun; subst.
  - destruct (Z.lt_ge_cases start (len text)) as [Hlt|Hge].
    + rewrite chunk_loop_S in Hrun by exact Hlt.
      eapply IH; [|exact Hrun].
      apply Forall_app. split; [exact Hall|].
      constructor; [|constructor]. now apply chunk_step_size.
    + cbn [chunk_loop] in Hrun.
      destruct (Z.ltb_spec start (len text)); [lia|].
      now inversion Hrun; subst.
Qed.

(** X1. Whenever [chunk_text] returns, no chunk is longer than
    [chunk_size], for every text and every overlap. *)
Theorem chunk_text_chunks_bounded (fuel : nat) (text : str)
    (chunk_size overlap : Z) (chunks : list str) :
  0 <= chunk_size ->
  chunk_text fuel text chunk_size overlap = Some chunks ->
  Forall (fun c => len c <= chunk_size) chunks.
Proof.
  intros Hc Hrun. unfold chunk_text in Hrun.
  eapply chunk_loop_sizes; [exact Hc| |exact Hrun]. constructor.
Qed.

Lemma chunk_text_chunks_bounded_witness :
  0 <= 10
  /\ chunk_text 10 (s2l "AAAAA. BBBBB. CCCCC.") 10 2
     = Some [s2l "AAAAA."; s2l "A. BBBBB."; s2l "B. CCCCC."; s2l "."]
  /\ Forall (fun c => len c <= 10)
       [s2l "AAAAA."; s2l "A. BBBBB."; s2l "B. CCCCC."; s2l "."].
Proof.
  split; [lia|]. split; [reflexivity|].
  apply (chunk_text_chunks_bounded 10 (s2l "AAAAA. BBBBB. CCCCC.") 10 2);
    [lia | reflexivity].
Defined.

(** X2. Without overlap the chunker always terminates: for every text and
    every [chunk_size > 0], [len(text)] iterations suffice. *)
Theorem chunk_text_without_overlap_terminates (fuel : nat) (text : str)
    (chunk_size : Z) :
  0 < chunk_size ->
  (length text <= fuel)%nat ->
  exists chunks, chunk_text fuel text chunk_size 0 = Some chunks.
Proof.
  intros Hc Hf. unfold chunk_text.
  apply chunk_loop_ends_without_overlap; [exact Hc | lia | unfold len; lia].
Qed.

Lemma chunk_text_without_overlap_terminates_witness :
  0 < 5 /\ (length (s2l ". abcdefg") <= 9)%nat
  /\ exists chunks, chunk_text 9 (s2l ". abcdefg") 5 0 = Some chunks.
Proof.
  split; [lia|]. split; [simpl; lia|].
  apply (chunk_text_without_overlap_terminates 9 (s2l ". abcdefg") 5);
    [lia | simpl; lia].
Defined.

End ChunkerSizes.

Section ChunkerHardCuts.

Import Chunker.

Lemma chunk_loop_done (fuel : nat) (text : str) (chunk_size overlap start : Z)
    (chunks : list str) :
  len text <= start ->
  chunk_loop fuel text chunk_size overlap start chunks = Some chunks.
Proof.
  intros Hs. destruct fuel; cbn [chunk_loop];
    destruct (Z.ltb_spec start (len text)); try lia; reflexivity.
Qed.

(** The loop when every iteration cuts at [start + chunk_size]: [m] windows,
    [step = chunk_size - overlap] apart. *)
Lemma chunk_loop_hard_cuts (text : str) (chunk_size overlap : Z) :
  0 < chunk_size - overlap ->
  (forall start, 0 <= start ->
     chunk_step text chunk_size overlap start
     = (strip (slice text start (start + chunk_size)),
        start + chunk_size - overlap)) ->
  forall m fuel start chunks,
    (m <= fuel)%nat ->
    0 <= start ->
    len text <= start + Z.of_nat m * (chunk_size - overlap) ->
    (forall j, (j < m)%nat ->
       start + Z.of_nat j * (chunk_size - overlap) < len text) ->
    chunk_loop fuel text chunk_size overlap start chunks
    = Some (chunks
            ++ map (fun j =>
                      strip (slice text
                               (start + Z.of_nat j * (chunk_size - overlap))
                               (start + Z.of_nat j * (chunk_size - overlap)
                                + chunk_size)))
                 (seq 0 m)).
Proof.
  intros Hstep Hhard.
  induction m as [|m IH]; intros fuel start chunks Hf Hs Hend Hin.
  - cbn [seq map]. rewrite app_nil_r. apply chunk_loop_done. lia.
  - destruct fuel as [|fuel]; [lia|].
    assert (Hlt : start < len text) by (specialize (Hin 0%nat); lia).
    rewrite chunk_loop_S by exact Hlt.
    rewrite (Hhard start Hs). cbn [fst snd].
    rewrite (IH fuel (start + chunk_size - overlap)); try lia.
    + rewrite <- app_assoc. do 2 f_equal. cbn [seq map app]. f_equal.
      * replace (start + Z.of_nat 0 * (chunk_size - overlap)) with start
          by lia.
        reflexivity.
      * rewrite <- seq_shift, map_map. apply map_ext. intros j.
        replace (start + chunk_size - overlap
                 + Z.of_nat j * (chunk_size - overlap))
          with (start + Z.of_nat (S j) * (chunk_size - overlap)) by lia.
        reflexivity.
    + intros j Hj. specialize (Hin (S j)). lia.
Qed.

(** The number of windows [step] apart that start inside a text. *)
Lemma window_count (n step : Z) :
  0 <= n -> 0 < step ->
  n <= Z.of_nat (Z.to_nat ((n + step - 1) / step)) * step
  /\ forall j, (j < Z.to_nat ((n + step - 1) / step))%nat ->
       Z.of_nat j * step < n.
Proof.
  intros Hn Hstep.
  pose proof (Z.div_mod (n + step - 1) step ltac:(lia)) as Hdm.
  pose proof (Z.mod_pos_bound (n + step - 1) step Hstep) as Hmod.
  assert (Hq : 0 <= (n + step - 1) / step) by (apply Z.div_pos; lia).
  rewrite Z2Nat.id by exact Hq. split; [nia|].
  intros j Hj. apply Nat2Z.inj_lt in Hj. rewrite Z2Nat.id in Hj by exact Hq.
  nia.
Qed.

Lemma slice_whole (s : str) (stop : Z) : len s <= stop -> slice s 0 stop = s.
Proof.
  intros Hs. unfold slice, clamp_slice. cbn [Z.ltb].
  assert (0 <= len s) by (unfold len; lia).
  destruct (Z.ltb_spec stop 0); [lia|].
  replace (Z.min 0 (len s)) with 0 by lia.
  replace (Z.min stop (len s)) with (len s) by lia.
  cbn [Z.to_nat skipn]. rewrite Z.sub_0_r. unfold len.
  rewrite Nat2Z.id. apply firstn_all.
Qed.

(** A text no longer than [chunk_size] never reaches the sentence search. *)
Lemma chunk_step_short_text (text : str) (chunk_size overlap start : Z) :
  len text <= chunk_size ->
  0 <= start ->
  chunk_step text chunk_size overlap start
  = (strip (slice text start (start + chunk_size)),
     start + chunk_size - overlap).
Proof.
  intros Hlen Hs. unfold chunk_step.
  destruct (Z.ltb_spec (start + chunk_size) (len text)); [lia|reflexivity].
Qed.

(** X3. A non-empty text of at most [chunk_size - overlap] characters
    gives exactly one chunk, the stripped text, as soon as one iteration is
    allowed. *)
Theorem chunk_text_single_chunk (fuel : nat) (text : str)
    (chunk_size overlap : Z) :
  text <> [] ->
  0 <= overlap ->
  len text <= chunk_size - overlap ->
  chunk_text (S fuel) text chunk_size overlap = Some [strip text].
Proof.
  intros Hne Hov Hlen. unfold chunk_text.
  assert (Hpos : 0 < len text) by (destruct text; [congruence|unfold len; simpl; lia]).
  rewrite (chunk_loop_hard_cuts text chunk_size overlap ltac:(lia)
             (fun start Hs => chunk_step_short_text text chunk_size overlap
                                start ltac:(lia) Hs)
             1%nat (S fuel) 0 []); try lia.
  - cbn [seq map app]. rewrite Z.mul_0_l, !Z.add_0_l.
    now rewrite slice_whole by lia.
  - intros j Hj. assert (j = 0)%nat by lia. subst j. lia.
Qed.

Lemma chunk_text_single_chunk_witness :
  Samples.two_lines <> [] /\ 0 <= 50 /\ len Samples.two_lines <= 500 - 50
  /\ chunk_text 1 Samples.two_lines 500 50 = Some [strip Samples.two_lines].
Proof.
  split; [discriminate|]. split; [lia|]. split; [vm_compute; discriminate|].
  apply (chunk_text_single_chunk 0 Samples.two_lines 500 50);
    [discriminate | lia | vm_compute; discriminate].
Defined.

(** X4. A text that fits one window but is longer than
    [chunk_size - overlap] is not returned as one chunk: after the whole
    (stripped) text come the stripped suffixes starting at each further
    multiple of [chunk_size - overlap]. *)
Theorem chunk_text_short_text_suffixes (fuel : nat) (text : str)
    (chunk_size overlap : Z) :
  len text <= chunk_size ->
  0 <= overlap < chunk_size ->
  let step := chunk_size - overlap in
  let n := Z.to_nat ((len text + step - 1) / step) in
  (n <= fuel)%nat ->
  chunk_text fuel text chunk_size overlap
  = Some (map (fun j => strip (skipn (j * Z.to_nat step) text)) (seq 0 n)).
Proof.
  intros Hlen Hov step n Hf. unfold chunk_text.
  assert (H0 : 0 <= len text) by (unfold len; lia).
  destruct (window_count (len text) step H0 ltac:(unfold step; lia))
    as [Hend Hin].
  assert (Hend' : len text <= 0 + Z.of_nat n * step) by (unfold n; lia).
  assert (Hin' : forall j, (j < n)%nat -> 0 + Z.of_nat j * step < len text).
  { intros j Hj. specialize (Hin j Hj). lia. }
  rewrite (chunk_loop_hard_cuts text chunk_size overlap ltac:(lia)
             (fun start Hs => chunk_step_short_text text chunk_size overlap
                                start Hlen Hs)
             n fuel 0 [] Hf (Z.le_refl 0) Hend' Hin'); fold step.
  cbn [app]. f_equal. apply map_ext_in. intros j Hj.
  apply in_seq in Hj. f_equal.
  specialize (Hin j ltac:(lia)).
  assert (Hj0 : 0 <= Z.of_nat j * step) by (unfold step; nia).
  unfold slice, clamp_slice.
  destruct (Z.ltb_spec (0 + Z.of_nat j * step) 0); [lia|].
  destruct (Z.ltb_spec (0 + Z.of_nat j * step + chunk_size) 0); [lia|].
  replace (Z.min (0 + Z.of_nat j * step) (len text))
    with (Z.of_nat j * step) by lia.
  replace (Z.min (0 + Z.of_nat j * step + chunk_size) (len text))
    with (len text) by (unfold step in *; lia).
  replace (Z.to_nat (Z.of_nat j * step)) with (j * Z.to_nat step)%nat
    by (unfold step in *; nia).
  apply firstn_all2. rewrite length_skipn. unfold len. lia.
Qed.

Lemma chunk_text_short_text_suffixes_witness :
  len (s2l "abcdefgh") <= 10 /\ 0 <= 7 < 10
  /\ chunk_text 3 (s2l "abcdefgh") 10 7
     = Some [s2l "abcdefgh"; s2l "defgh"; s2l "gh"].
Proof.
  split; [vm_compute; discriminate|]. split; [lia|].
  apply (chunk_text_short_text_suffixes 3 (s2l "abcdefgh") 10 7);
    [vm_compute; discriminate | lia | vm_compute; lia].
Defined.

End ChunkerHardCuts.

Section ChunkerPlainText.

Import Chunker.

Lemma is_prefix_In (p s : str) (c : ascii) :
  is_prefix p s = true -> In c p -> In c s.
Proof.
  revert s. induction p as [|a p IH]; intros [|b s] Hp Hc; simpl in *;
    try contradiction; try discriminate.
  apply andb_true_iff in Hp. destruct Hp as [Hab Hp].
  apply Ascii.eqb_eq in Hab. subst b.
  destruct Hc as [->|Hc]; [now left | right; now apply IH].
Qed.

Lemma skipn_In {A : Type} (n : nat) (l : list A) (x : A) :
  In x (skipn n l) -> In x l.
Proof.
  intros Hx. rewrite <- (firstn_skipn n l). apply in_or_app. now right.
Qed.

(** A separator holding a character the text lacks is never found. *)
Lemma rfind_absent (s sub : str) (c : ascii) (start stop : Z) :
  In c sub -> ~ In c s -> rfind s sub start stop = -1.
Proof.
  intros Hc Hs. unfold rfind.
  assert (Hscan : forall n lo, rfind_scan s sub lo n = -1).
  { induction n as [|n IH]; intros lo; simpl; [reflexivity|].
    destruct (starts_at s (lo + Z.of_nat n) sub) eqn:E; [|apply IH].
    exfalso. apply Hs. unfold starts_at in E.
    eapply skipn_In, is_prefix_In; [exact E|exact Hc]. }
  apply Hscan.
Qed.

Lemma find_boundary_absent (text : str) (start stop : Z) :
  ~ In " "%char text -> ~ In LF text ->
  find_boundary text terminators start stop = stop.
Proof.
  intros Hsp Hlf. unfold terminators. cbn [find_boundary].
  rewrite !(rfind_absent text _ " "%char) by (cbn; auto).
  cbn [Z.eqb]. rewrite (rfind_absent text _ LF) by (cbn; auto).
  reflexivity.
Qed.

(** X5. A text without spaces and without line feeds is cut at every
    [chunk_size] characters: for [0 <= overlap < chunk_size] the chunker
    terminates after one iteration per window start below [len(text)], the
    windows being [chunk_size - overlap] apart. *)
Theorem chunk_text_without_terminators (fuel : nat) (text : str)
    (chunk_size overlap : Z) :
  ~ In " "%char text ->
  ~ In LF text ->
  0 <= overlap < chunk_size ->
  let step := chunk_size - overlap in
  let n := Z.to_nat ((len text + step - 1) / step) in
  (n <= fuel)%nat ->
  chunk_text fuel text chunk_size overlap
  = Some (map (fun j => strip (slice text (Z.of_nat j * step)
                                 (Z.of_nat j * step + chunk_size)))
            (seq 0 n)).
Proof.
  intros Hsp Hlf Hov step n Hf. unfold chunk_text.
  assert (H0 : 0 <= len text) by (unfold len; lia).
  destruct (window_count (len text) step H0 ltac:(unfold step; lia))
    as [Hend Hin].
  assert (Hend' : len text <= 0 + Z.of_nat n * step) by (unfold n; lia).
  assert (Hin' : forall j, (j < n)%nat -> 0 + Z.of_nat j * step < len text).
  { intros j Hj. specialize (Hin j Hj). lia. }
  assert (Hhard : forall start, 0 <= start ->
            chunk_step text chunk_size overlap start
            = (strip (slice text start (start + chunk_size)),
               start + chunk_size - overlap)).
  { intros start _. unfold chunk_step.
    rewrite find_boundary_absent by assumption.
    destruct (start + chunk_size <? len text); reflexivity. }
  rewrite (chunk_loop_hard_cuts text chunk_size overlap ltac:(lia) Hhard
             n fuel 0 [] Hf (Z.le_refl 0) Hend' Hin'); fold step.
  cbn [app]. f_equal.
Qed.

Lemma chunk_text_without_terminators_witness :
  ~ In " "%char (s2l "abcdefgh") /\ ~ In LF (s2l "abcdefgh") /\ 0 <= 1 < 3
  /\ chunk_text 4 (s2l "abcdefgh") 3 1
     = Some [s2l "abc"; s2l "cde"; s2l "efg"; s2l "gh"].
Proof.
  assert (Hsp : ~ In " "%char (s2l "abcdefgh"))
    by (cbn; intros H; repeat destruct H as [H|H]; try discriminate H; exact H).
  assert (Hlf : ~ In LF (s2l "abcdefgh"))
    by (cbn; intros H; repeat destruct H as [H|H]; try discriminate H; exact H).
  split; [exact Hsp|]. split; [exact Hlf|]. split; [lia|].
  apply (chunk_text_without_terminators 4 (s2l "abcdefgh") 3 1 Hsp Hlf);
    [lia | vm_compute; lia].
Defined.

End ChunkerPlainText.

(** ** PersistenceStore: what a reload gives back *)

Section ReloadFacts.

Variable windows : bool.

Lemma split_length (c : ascii) (s : str) :
  length (split c s) = S (count_occ ascii_dec s c).
Proof.
  induction s as [|x s IH]; [reflexivity|]. cbn [split count_occ].
  destruct (Ascii.eqb_spec x c) as [->|Hne].
  - destruct (ascii_dec c c); [|congruence]. cbn. now rewrite IH.
  - destruct (ascii_dec x c); [congruence|].
    destruct (split c s) as [|cur rest]; [discriminate|]. exact IH.
Qed.

Lemma count_occ_join (docs : list str) :
  docs <> [] ->
  count_occ ascii_dec (join [LF] docs) LF
  = (length docs - 1
     + list_sum (map (fun d => count_occ ascii_dec d LF) docs))%nat.
Proof.
  induction docs as [|d docs IH]; intros Hne; [congruence|].
  destruct docs as [|d' docs].
  - cbn. lia.
  - change (join [LF] (d :: d' :: docs))
      with (d ++ LF :: join [LF] (d' :: docs)).
    rewrite count_occ_app. cbn [count_occ].
    destruct (ascii_dec LF LF); [|congruence].
    rewrite IH by discriminate. unfold list_sum.
    cbn [map fold_right length]. lia.
Qed.

Lemma no_line_feed_iff (docs : list str) :
  list_sum (map (fun d => count_occ ascii_dec d LF) docs) = 0%nat
  <-> Forall (fun d => ~ In LF d) docs.
Proof.
  induction docs as [|d docs IH].
  - split; [constructor | reflexivity].
  - change (list_sum (map (fun d => count_occ ascii_dec d LF) (d :: docs)))
      with (count_occ ascii_dec d LF
            + list_sum (map (fun d => count_occ ascii_dec d LF) docs))%nat.
    split.
    + intros Hsum. constructor.
      * apply (count_occ_not_In ascii_dec). lia.
      * apply IH. lia.
    + intros Hall. inversion Hall as [|? ? Hd Hrest]; subst.
      apply (count_occ_not_In ascii_dec) in Hd. apply IH in Hrest. lia.
Qed.

(** X6. Saving a manager and constructing a new one from the store gives
    the same manager back when it holds at least one chunk and no chunk
    contains a line feed or a carriage return, on either kind of platform. *)
Theorem save_then_load_restores (self : RAGManager) (ix : FlatL2)
    (disk : Store) :
  index self = Some ix ->
  documents self <> [] ->
  Forall one_line (documents self) ->
  exists disk',
    _save_index windows self disk = (disk', inl tt)
    /\ init disk' = inl self.
Proof.
  intros Hix Hne Hlines. destruct self as [i docs ms]. cbn in *. subst i.
  eexists. split; [reflexivity|].
  unfold init, _load_index. cbn.
  now rewrite documents_txt_round_trip.
Qed.

(** X7. Without carriage returns in the chunks, the manager constructed
    from a saved store holds the saved index and metadata and one text per
    line of the file: one for an empty chunk list, else one per chunk plus
    one per line feed inside the chunks. The number of texts is the number of
    chunks exactly when there is a chunk and no chunk holds a line feed. *)
Theorem reloaded_text_count (self : RAGManager) (ix : FlatL2) (disk : Store) :
  index self = Some ix ->
  Forall (fun d => ~ In CR d) (documents self) ->
  exists disk' self',
    _save_index windows self disk = (disk', inl tt)
    /\ init disk' = inl self'
    /\ index self' = Some ix
    /\ metadata self' = metadata self
    /\ length (documents self')
       = (Nat.max 1 (length (documents self))
          + list_sum (map (fun d => count_occ ascii_dec d LF)
                        (documents self)))%nat
    /\ (length (documents self') = length (documents self)
        <-> documents self <> []
            /\ Forall (fun d => ~ In LF d) (documents self)).
Proof.
  intros Hix Hcr. destruct self as [i docs ms].
  cbn [index documents metadata] in *. subst i.
  exists (mkStore (Some ix) (Some (write_text windows (join [LF] docs)))
            (Some ms)),
         (mkRAG (Some ix)
            (split LF (read_text (write_text windows (join [LF] docs)))) ms).
  split; [reflexivity|]. split; [reflexivity|].
  split; [reflexivity|]. split; [reflexivity|].
  cbn [documents].
  rewrite read_write_text by now apply join_no_CR.
  rewrite split_length.
  assert (Hcount : S (count_occ ascii_dec (join [LF] docs) LF)
                   = (Nat.max 1 (length docs)
                      + list_sum (map (fun d => count_occ ascii_dec d LF) docs))%nat).
  { destruct docs as [|d docs]; [reflexivity|].
    rewrite count_occ_join by discriminate. cbn [length]. lia. }
  split; [exact Hcount|]. rewrite Hcount. rewrite <- no_line_feed_iff.
  destruct docs as [|d docs].
  - cbn. split; [lia | intros [H _]; congruence].
  - cbn [length]. split.
    + intros Heq. split; [discriminate|lia].
    + intros [_ Hsum]. lia.
Qed.

End ReloadFacts.

Lemma save_then_load_restores_witness :
  index Samples.old_manager = faiss_index Samples.old_store
  /\ documents Samples.old_manager <> []
  /\ Forall one_line (documents Samples.old_manager)
  /\ exists disk',
       _save_index false Samples.old_manager empty_store = (disk', inl tt)
       /\ init disk' = inl Samples.old_manager.
Proof.
  assert (Hl : Forall one_line (documents Samples.old_manager)).
  { repeat constructor; cbn; intros H; repeat destruct H as [H|H];
      try discriminate H; exact H. }
  split; [reflexivity|]. split; [discriminate|]. split; [exact Hl|].
  apply (save_then_load_restores false Samples.old_manager
           (mkFlatL2 384 [repeat (10 # 1) 384]) empty_store eq_refl);
    [discriminate | exact Hl].
Defined.

Lemma reloaded_text_count_witness :
  exists disk' self',
    _save_index false (mkRAG (faiss_index Samples.old_store)
                           [Samples.two_lines] [Samples.src "a.pdf"])
      empty_store = (disk', inl tt)
    /\ init disk' = inl self'
    /\ length (documents self') = 2%nat.
Proof.
  assert (Hcr : Forall (fun d => ~ In CR d) [Samples.two_lines]).
  { repeat constructor; cbn; intros H; repeat destruct H as [H|H];
      try discriminate H; exact H. }
  destruct (reloaded_text_count false
              (mkRAG (faiss_index Samples.old_store) [Samples.two_lines]
                 [Samples.src "a.pdf"])
              (mkFlatL2 384 [repeat (10 # 1) 384]) empty_store eq_refl Hcr)
    as (disk' & self' & Hs & Hi & _ & _ & Hlen & _).
  exists disk', self'. split; [exact Hs|]. split; [exact Hi|]. exact Hlen.
Defined.

(** ** Ingestion: how the arrays grow *)

Section GrowthFacts.

Variable embed : str -> option Vector.
Variable _chunk_text : str -> str.
Variable windows : bool.

(** The two outcomes of [add_documents]. *)
Lemma add_documents_outcome (self self' : RAGManager)
    (disk disk' : Store) (texts : list str) (metadatas : list Metadata)
    (r : result unit) :
  RAG.add_documents embed _chunk_text windows self disk texts metadatas
    = (self', disk', r) ->
  match r with
  | inl _ =>
      documents self' = documents self ++ map _chunk_text texts
      /\ metadata self' = metadata self ++ metadatas
      /\ (exists ix',
            index self' = Some ix'
            /\ ntotal ix' = (match index self with
                             | Some ix => ntotal ix
                             | None => 0
                             end + length texts)%nat)
      /\ RAG.synced windows self' disk'
  | inr _ =>
      documents self' = documents self
      /\ metadata self' = metadata self
      /\ disk' = disk
  end.
Proof.
  intros Hrun. destruct r as [[]|e].
  - destruct (add_documents_ok _ _ _ _ _ _ _ _ _ Hrun)
      as (embeddings & ix' & Henc & Hxb & -> & Hsync).
    cbn [documents metadata index]. repeat split; try assumption.
    exists ix'. split; [reflexivity|]. unfold ntotal. rewrite Hxb.
    apply encode_length in Henc. rewrite length_map in Henc.
    destruct (index self); [rewrite length_app|]; lia.
  - destruct (add_documents_failed _ _ _ _ _ _ _ _ _ _ Hrun)
      as (Hd & Hdocs & Hmeta & _). now repeat split.
Qed.

(** X9. A call of [add_documents] that returns has added one vector and
    one chunk per text and every metadata object passed, and has left the
    store holding exactly the new arrays. A call that ends in the exception
    of the embedding model or of the index's dimension check has changed
    neither list nor the store, and the former not even the index. *)
Theorem add_documents_commits_or_fails_early (self self' : RAGManager)
    (disk disk' : Store) (texts : list str) (metadatas : list Metadata)
    (r : result unit) :
  RAG.add_documents embed _chunk_text windows self disk texts metadatas
    = (self', disk', r) ->
  (r = inl tt ->
   documents self' = documents self ++ map _chunk_text texts
   /\ metadata self' = metadata self ++ metadatas
   /\ (exists ix',
         index self' = Some ix'
         /\ ntotal ix' = (match index self with
                          | Some ix => ntotal ix
                          | None => 0
                          end + length texts)%nat
         /\ disk' = mkStore (Some ix')
                      (Some (write_text windows (join [LF] (documents self'))))
                      (Some (metadata self'))))
  /\ (r = inr EmbeddingUnavailable \/ r = inr DimensionMismatch ->
      documents self' = documents self
      /\ metadata self' = metadata self
      /\ disk' = disk)
  /\ (r = inr EmbeddingUnavailable -> self' = self).
Proof.
  intros Hrun. split; [|split].
  - intros ->.
    pose proof (add_documents_outcome _ _ _ _ _ _ _ Hrun) as Hgrow.
    cbn beta iota in Hgrow.
    destruct Hgrow as (Hd & Hm & (ix' & Hix' & Hn) & Hsync).
    split; [exact Hd|]. split; [exact Hm|].
    exists ix'. split; [exact Hix'|]. split; [exact Hn|].
    unfold RAG.synced in Hsync. now rewrite Hix' in Hsync.
  - intros Hr.
    assert (He : exists e, r = inr e) by (destruct Hr; eexists; eassumption).
    destruct He as [e ->].
    exact (add_documents_outcome _ _ _ _ _ _ _ Hrun).
  - intros ->. unfold RAG.add_documents in Hrun.
    destruct (RAG.encode embed (map _chunk_text texts)) as [embeddings|].
    + destruct (add match index self with
                    | Some ix => ix
                    | None => IndexFlatL2 384
                    end embeddings); cbn in Hrun; inversion Hrun.
    + now inversion Hrun.
Qed.

(** The embedding model answers every text with a vector of the dimension
    the index is created with. *)
Hypothesis embed_ok :
  forall t, exists v, embed t = Some v /\ length v = 384%nat.

Lemma encode_ok (texts : list str) :
  exists vs,
    RAG.encode embed texts = Some vs
    /\ forallb (fun v => Nat.eqb (length v) 384) vs = true.
Proof.
  induction texts as [|t texts [vs [Hvs Hall]]]; simpl.
  - now exists [].
  - destruct (embed_ok t) as (v & Hv & Hlen). rewrite Hv, Hvs.
    exists (v :: vs). split; [reflexivity|]. simpl.
    rewrite Hall, Hlen. reflexivity.
Qed.

Lemma add_documents_succeeds (self : RAGManager) (disk : Store)
    (texts : list str) (metadatas : list Metadata) :
  index_fits self ->
  exists self' disk',
    RAG.add_documents embed _chunk_text windows self disk texts metadatas
      = (self', disk', inl tt)
    /\ index_fits self'.
Proof.
  intros Hfit. unfold RAG.add_documents.
  destruct (encode_ok (map _chunk_text texts)) as (vs & Hvs & Hall).
  rewrite Hvs. unfold add.
  assert (Hdim : dim (match index self with
                      | Some ix => ix
                      | None => IndexFlatL2 384
                      end) = 384%nat).
  { destruct (index self) as [ix|] eqn:E; [now apply Hfit | reflexivity]. }
  rewrite Hdim, Hall. cbn.
  do 2 eexists. split; [reflexivity|].
  intros ix' Hix'. cbn in Hix'. inversion Hix'; subst. reflexivity.
Qed.

Lemma index_directory_succeeds (files : list PdfFile) :
  forall (self : RAGManager) (disk : Store),
    index_fits self ->
    exists self' disk',
      RAG.index_directory embed _chunk_text windows self disk files
        = (self', disk', inl tt)
      /\ index_fits self'
      /\ documents self'
         = documents self
           ++ map (fun f => _chunk_text (join [LF] (pages f))) files
      /\ metadata self'
         = metadata self ++ map (fun f => [(s2l "source", name f)]) files
      /\ vector_count self' = (vector_count self + length files)%nat
      /\ (files <> [] -> faiss_index disk' = index self').
Proof.
  induction files as [|f files IH]; intros self disk Hfit.
  - exists self, disk. cbn. rewrite !app_nil_r, Nat.add_0_r.
    repeat split; auto. congruence.
  - destruct (add_documents_succeeds self disk [join [LF] (pages f)]
                [[(s2l "source", name f)]] Hfit)
      as (self1 & disk1 & Hadd & Hfit1).
    destruct (IH self1 disk1 Hfit1)
      as (self' & disk' & Hrun & Hfit' & Hd & Hm & Hn & Hdisk).
    exists self', disk'. cbn [RAG.index_directory]. rewrite Hadd.
    split; [exact Hrun|]. split; [exact Hfit'|].
    pose proof (add_documents_outcome _ _ _ _ _ _ _ Hadd) as Hgrow.
    cbn beta iota in Hgrow.
    destruct Hgrow as (Hd1 & Hm1 & (ix1 & Hix1 & Hn1) & Hsync1).
    rewrite Hd, Hm, Hd1, Hm1, <- !app_assoc.
    split; [reflexivity|]. split; [reflexivity|]. split.
    + rewrite Hn. unfold vector_count at 1. rewrite Hix1, Hn1.
      unfold vector_count. cbn [length]. destruct (index self); lia.
    + intros _. destruct files as [|f' files].
      * cbn in Hrun. inversion Hrun; subst.
        unfold RAG.synced in Hsync1. rewrite Hix1 in Hsync1.
        rewrite Hsync1, Hix1. reflexivity.
      * apply Hdisk. discriminate.
Qed.

End GrowthFacts.

Lemma add_documents_commits_or_fails_early_witness :
  exists self disk,
    RAG.add_documents Samples.flaky_embed Samples.whole_chunk false
      Samples.old_manager Samples.old_store [s2l "pump"; s2l "boom"]
      [Samples.src "p.txt"; Samples.src "b.txt"]
    = (self, disk, inr EmbeddingUnavailable)
    /\ documents self = documents Samples.old_manager
    /\ metadata self = metadata Samples.old_manager
    /\ disk = Samples.old_store.
Proof.
  destruct (RAG.add_documents Samples.flaky_embed Samples.whole_chunk false
              Samples.old_manager Samples.old_store [s2l "pump"; s2l "boom"]
              [Samples.src "p.txt"; Samples.src "b.txt"])
    as [[self disk] r] eqn:Hrun.
  assert (Hr : r = inr EmbeddingUnavailable)
    by (vm_compute in Hrun; now inversion Hrun).
  subst r. exists self, disk. split; [reflexivity|].
  exact (proj1 (proj2 (add_documents_commits_or_fails_early _ _ _ _ _ _ _ _ _
                         _ Hrun))
           (or_introl eq_refl)).
Defined.

(** ** Builds with a working embedding model *)

Lemma stub_embed_ok (t : str) :
  exists v, Samples.stub_embed t = Some v /\ length v = 384%nat.
Proof. eexists. split; [reflexivity|]. apply repeat_length. Qed.

Lemma old_manager_fits : index_fits Samples.old_manager.
Proof. intros ix H. inversion H. reflexivity. Qed.

Section BuildFacts.

Variable embed : str -> option Vector.
Variable _chunk_text : str -> str.
Variable windows : bool.

Hypothesis embed_ok :
  forall t, exists v, embed t = Some v /\ length v = 384%nat.

(** X10. With a working embedding model, [index_directory] succeeds and
    stores exactly one vector, one chunk and one metadata object per PDF,
    in the order of the files, whatever the length of a PDF's text. *)
Theorem index_directory_one_entry_per_pdf (files : list PdfFile)
    (self : RAGManager) (disk : Store) :
  index_fits self ->
  exists self' disk',
    RAG.index_directory embed _chunk_text windows self disk files
      = (self', disk', inl tt)
    /\ documents self'
       = documents self
         ++ map (fun f => _chunk_text (join [LF] (pages f))) files
    /\ metadata self'
       = metadata self ++ map (fun f => [(s2l "source", name f)]) files
    /\ vector_count self' = (vector_count self + length files)%nat.
Proof.
  intros Hfit.
  destruct (index_directory_succeeds embed _chunk_text windows embed_ok
              files self disk Hfit)
    as (self' & disk' & Hrun & _ & Hd & Hm & Hn & _).
  now exists self', disk'.
Qed.

(** X11. A forced [setup_rag], or one on a store without [faiss.index],
    over a non-empty directory appends one entry per PDF to whatever the
    constructor loaded; a later start without [--reindex] finds the index
    and leaves the store untouched. *)
Theorem setup_rag_builds_then_reuses (force_reindex : bool) (f : PdfFile)
    (files : list PdfFile) (disk : Store) (loaded : RAGManager) :
  force_reindex = true \/ faiss_index disk = None ->
  init disk = inl loaded ->
  index_fits loaded ->
  exists self disk',
    RAG.setup_rag embed _chunk_text windows force_reindex (f :: files) disk
      = (Some self, disk', inl tt)
    /\ documents self
       = documents loaded
         ++ map (fun f => _chunk_text (join [LF] (pages f))) (f :: files)
    /\ metadata self
       = metadata loaded
         ++ map (fun f => [(s2l "source", name f)]) (f :: files)
    /\ RAG.setup_rag embed _chunk_text windows false (f :: files) disk'
       = (None, disk', inl tt).
Proof.
  intros Hforce Hinit Hfit.
  destruct (index_directory_succeeds embed _chunk_text windows embed_ok
              (f :: files) loaded disk Hfit)
    as (self & disk' & Hrun & Hfit' & Hd & Hm & Hn & Hdisk).
  exists self, disk'.
  assert (Hix : exists ix, faiss_index disk' = Some ix).
  { rewrite Hdisk by discriminate. unfold vector_count in Hn.
    destruct (index self) as [ix|]; [now exists ix|].
    cbn [length] in Hn. lia. }
  destruct Hix as [ix Hix].
  split; [|split; [exact Hd|split; [exact Hm|]]].
  - unfold RAG.setup_rag. rewrite Hinit, Hrun.
    destruct Hforce as [Hf | Hf]; rewrite Hf;
      [now destruct (faiss_index disk) | reflexivity].
  - unfold RAG.setup_rag. now rewrite Hix.
Qed.

Lemma index_each_succeeds (cwd pdfs : list PdfFile) :
  forall (self : RAGManager) (disk : Store),
    index_fits self ->
    exists self' disk',
      Simulator.index_each embed _chunk_text windows pdfs self disk cwd
        = (self', disk', inl tt)
      /\ index_fits self'
      /\ documents self'
         = documents self
           ++ concat
                (map (fun _ =>
                        map (fun f => _chunk_text (join [LF] (pages f))) cwd)
                   pdfs)
      /\ metadata self'
         = metadata self
           ++ concat
                (map (fun _ => map (fun f => [(s2l "source", name f)]) cwd)
                   pdfs).
Proof.
  induction pdfs as [|p pdfs IH]; intros self disk Hfit.
  - exists self, disk. cbn. rewrite !app_nil_r. now repeat split.
  - destruct (index_directory_succeeds embed _chunk_text windows embed_ok
                cwd self disk Hfit)
      as (self1 & disk1 & Hrun1 & Hfit1 & Hd1 & Hm1 & _).
    destruct (IH self1 disk1 Hfit1) as (self' & disk' & Hrun & Hfit' & Hd & Hm).
    exists self', disk'. cbn [Simulator.index_each]. rewrite Hrun1.
    split; [exact Hrun|]. split; [exact Hfit'|].
    cbn [map concat]. rewrite Hd, Hm, Hd1, Hm1, <- !app_assoc.
    now split.
Qed.

(** X12. The start-up block of the architecture notes runs
    [index_directory] over the whole directory once per PDF found: with [n]
    PDFs and a working embedding model a build on a store without
    [faiss.index] ends with [n * n] entries, each PDF [n] times. *)
Theorem simulator_main_indexes_each_pdf_n_times (force_reindex : bool)
    (f : PdfFile) (files : list PdfFile) (disk : Store) :
  faiss_index disk = None ->
  exists self disk',
    Simulator.main embed _chunk_text windows force_reindex (f :: files) disk
      = (Some self, disk', inl tt)
    /\ documents self
       = concat (map (fun _ =>
                        map (fun f => _chunk_text (join [LF] (pages f)))
                          (f :: files))
                   (f :: files))
    /\ length (documents self)
       = (length (f :: files) * length (f :: files))%nat
    /\ length (metadata self) = length (documents self).
Proof.
  intros Hnone.
  assert (Hfit : index_fits (mkRAG None [] [])) by (intros ix H; discriminate).
  destruct (index_each_succeeds (f :: files) (f :: files) (mkRAG None [] [])
              disk Hfit)
    as (self & disk' & Hrun & _ & Hd & Hm).
  exists self, disk'. cbn [documents metadata app] in Hd, Hm.
  split; [|split; [exact Hd|]].
  - unfold Simulator.main, init, _load_index. rewrite Hnone, Hrun. reflexivity.
  - rewrite Hd, Hm.
    assert (Hlen : forall (A : Type) (row : list A) (l : list PdfFile),
              length (concat (map (fun _ => row) l))
              = (length l * length row)%nat).
    { intros A row l. induction l as [|x l IHl]; [reflexivity|].
      cbn [map concat length]. rewrite length_app, IHl. lia. }
    rewrite !Hlen. rewrite !length_map.
    split; reflexivity.
Qed.

End BuildFacts.

Lemma index_directory_one_entry_per_pdf_witness :
  index_fits Samples.old_manager
  /\ exists self' disk',
       RAG.index_directory Samples.stub_embed Samples.whole_chunk false
         Samples.old_manager Samples.old_store [Samples.new_pdf]
         = (self', disk', inl tt)
       /\ vector_count self' = 2%nat.
Proof.
  split; [exact old_manager_fits|].
  destruct (index_directory_one_entry_per_pdf Samples.stub_embed
              Samples.whole_chunk false stub_embed_ok [Samples.new_pdf]
              Samples.old_manager Samples.old_store old_manager_fits)
    as (self' & disk' & Hrun & _ & _ & Hn).
  now exists self', disk'.
Defined.

Lemma setup_rag_builds_then_reuses_witness :
  (true = true \/ faiss_index Samples.old_store = None)
  /\ init Samples.old_store = inl Samples.old_manager
  /\ index_fits Samples.old_manager
  /\ exists self disk',
       RAG.setup_rag Samples.stub_embed Samples.whole_chunk false true
         [Samples.new_pdf] Samples.old_store = (Some self, disk', inl tt)
       /\ RAG.setup_rag Samples.stub_embed Samples.whole_chunk false false
            [Samples.new_pdf] disk' = (None, disk', inl tt).
Proof.
  split; [now left|]. split; [reflexivity|]. split; [exact old_manager_fits|].
  destruct (setup_rag_builds_then_reuses Samples.stub_embed
              Samples.whole_chunk false stub_embed_ok true Samples.new_pdf []
              Samples.old_store Samples.old_manager (or_introl eq_refl)
              eq_refl old_manager_fits)
    as (self & disk' & Hrun & _ & _ & Hagain).
  now exists self, disk'.
Defined.

Lemma simulator_main_indexes_each_pdf_n_times_witness :
  faiss_index empty_store = None
  /\ exists self disk',
       Simulator.main Samples.stub_embed Samples.whole_chunk false false
         [Samples.old_pdf; Samples.new_pdf] empty_store
         = (Some self, disk', inl tt)
       /\ length (documents self) = 4%nat.
Proof.
  split; [reflexivity|].
  destruct (simulator_main_indexes_each_pdf_n_times Samples.stub_embed
              Samples.whole_chunk false stub_embed_ok false Samples.old_pdf
              [Samples.new_pdf] empty_store eq_refl)
    as (self & disk' & Hrun & _ & Hlen & _).
  now exists self, disk'.
Defined.

(** ** Retriever on the arrays a manager holds *)

Section RetrieveOnArrays.

Variable embed : str -> option Vector.
Variable _chunk_text : str -> str.

Lemma retrieve_hits_raises (self : RAGManager) (hits : list hit) (h : hit) :
  In h hits ->
  nth_error (documents self) (fst h) = None
  \/ nth_error (metadata self) (fst h) = None ->
  retrieve_hits self hits = inr IndexError.
Proof.
  intros Hin Hout. induction hits as [|h' hits IH]; [destruct Hin|].
  cbn [retrieve_hits]. unfold retrieve_hit.
  destruct Hin as [->|Hin].
  - destruct Hout as [-> | ->]; [reflexivity|].
    now destruct (nth_error (documents self) (fst h)).
  - destruct (nth_error (documents self) (fst h')),
             (nth_error (metadata self) (fst h')); try reflexivity.
    now rewrite (IH Hin).
Qed.

(** A search for at least as many results as there are vectors lists every
    ordinal. *)
Lemma search_all (ix : FlatL2) (qv : Vector) (k : Z) (i : nat) :
  Z.of_nat (ntotal ix) <= k ->
  (i < ntotal ix)%nat ->
  exists d, In (i, d) (search ix qv k).
Proof.
  intros Hk Hi. unfold search, ntotal in *.
  rewrite firstn_all2
    by (rewrite rank_length, distances_from_length; lia).
  destruct (nth_error (xb ix) i) as [v|] eqn:Hv;
    [|apply nth_error_None in Hv; lia].
  exists (l2sq v qv). apply rank_In, distances_from_In. now exists i, v.
Qed.

(** X13. When [documents] or [metadata] is shorter than the index, a query
    that asks for at least as many results as there are vectors ends in an
    index error instead of a result list. *)
Theorem retrieve_misaligned_raises (self : RAGManager) (ix : FlatL2)
    (query : str) (qv : Vector) (top_k : Z) :
  index self = Some ix ->
  embed query = Some qv ->
  (length (documents self) < ntotal ix)%nat
  \/ (length (metadata self) < ntotal ix)%nat ->
  Z.of_nat (ntotal ix) <= top_k ->
  retrieve embed self query top_k = inr IndexError.
Proof.
  intros Hix Hq Hshort Hk. unfold retrieve. rewrite Hq, Hix.
  assert (Hlast : (ntotal ix - 1 < ntotal ix)%nat) by lia.
  destruct (search_all ix qv top_k _ Hk Hlast) as [d Hin].
  apply (retrieve_hits_raises self _ _ Hin). cbn [fst].
  destruct Hshort as [H|H]; [left|right]; apply nth_error_None; lia.
Qed.

(** X14. On aligned arrays, a query whose text is a stored chunk gets a
    non-empty result list whose first entry has score 1 and is stored at or
    before the ordinal of that chunk. *)
Theorem retrieve_finds_stored_chunk (entries : list (str * Metadata))
    (self : RAGManager) (ix : FlatL2) (j : nat) (chunk : str) (top_k : Z) :
  RAG.represents embed _chunk_text entries self ->
  index self = Some ix ->
  nth_error (documents self) j = Some chunk ->
  0 < top_k ->
  exists r rest o,
    retrieve embed self chunk top_k = inl (r :: rest)
    /\ (score r == 1)%Q
    /\ (o <= j)%nat
    /\ nth_error (documents self) o = Some (text r)
    /\ nth_error (metadata self) o = Some (meta r).
Proof.
  intros Hrep Hix Hj Hk.
  destruct (represents_lengths _ _ _ _ Hrep) as [Hlen Hn].
  specialize (Hn ix Hix).
  destruct Hrep as (_ & _ & Henc). rewrite Hix in Henc.
  assert (Hv : exists v, embed chunk = Some v /\ nth_error (xb ix) j = Some v).
  { clear Hlen Hn Hix. revert j Hj Henc. generalize (xb ix) as vs.
    generalize (documents self) as docs.
    induction docs as [|d docs IH]; intros vs j Hj Henc;
      [now destruct j|].
    cbn [RAG.encode] in Henc.
    destruct (embed d) as [v|] eqn:Ed; [|discriminate].
    destruct (RAG.encode embed docs) as [vs'|] eqn:Evs; [|discriminate].
    inversion Henc; subst. destruct j as [|j]; cbn in Hj |- *.
    - inversion Hj; subst. now exists v.
    - now apply (IH vs' j Hj). }
  destruct Hv as (v & Hev & Hvj).
  destruct (search_exact_match_first ix v top_k j Hk Hvj)
    as (h & hits & Hs & Hz & Hle & _).
  assert (Hall : Forall (fun h => (fst h < length (documents self))%nat
                          /\ (fst h < length (metadata self))%nat)
                   (search ix v top_k)).
  { rewrite Forall_forall. intros h' Hh'.
    destruct (search_In _ _ _ _ Hh') as (w & Hw & _).
    assert (fst h' < ntotal ix)%nat
      by (unfold ntotal; apply nth_error_Some; congruence).
    lia. }
  destruct (retrieve_hits_total self _ Hall) as [results Hres].
  pose proof (retrieve_hits_assembled self _ _ Hres) as Hasm.
  rewrite Hs in Hasm. inversion Hasm as [|? r ? rest Har _]; subst.
  exists r, rest, (fst h). destruct Har as (Ht & Hm & Hsc).
  split; [unfold retrieve; now rewrite Hev, Hix|].
  split; [|now repeat split].
  rewrite Hsc. apply score_of_one_iff; [rewrite Hz; apply Qle_refl|exact Hz].
Qed.

End RetrieveOnArrays.

Lemma old_manager_represents :
  RAG.represents Samples.stub_embed Samples.whole_chunk
    [(s2l "old manual", Samples.src "old.pdf")] Samples.old_manager.
Proof. repeat split. Qed.

Lemma retrieve_misaligned_raises_witness :
  let self := mkRAG (Some (mkFlatL2 384 [repeat (1 # 1) 384; repeat (1 # 1) 384]))
                [s2l "a"; s2l "b"] [Samples.src "a.pdf"] in
  Samples.stub_embed (s2l "q") = Some (repeat (1 # 1) 384)
  /\ retrieve Samples.stub_embed self (s2l "q") 2 = inr IndexError.
Proof.
  cbv zeta. split; [reflexivity|].
  apply (retrieve_misaligned_raises Samples.stub_embed
           (mkRAG (Some (mkFlatL2 384 [repeat (1 # 1) 384; repeat (1 # 1) 384]))
              [s2l "a"; s2l "b"] [Samples.src "a.pdf"])
           (mkFlatL2 384 [repeat (1 # 1) 384; repeat (1 # 1) 384])
           (s2l "q") (repeat (1 # 1) 384) 2 eq_refl eq_refl).
  - right. cbn. lia.
  - cbn. lia.
Defined.

Lemma retrieve_finds_stored_chunk_witness :
  exists r rest,
    retrieve Samples.stub_embed Samples.old_manager (s2l "old manual") 3
      = inl (r :: rest)
    /\ (score r == 1)%Q.
Proof.
  destruct (retrieve_finds_stored_chunk Samples.stub_embed Samples.whole_chunk
              _ Samples.old_manager (mkFlatL2 384 [repeat (10 # 1) 384])
              0%nat (s2l "old manual") 3 old_manager_represents eq_refl
              eq_refl eq_refl)
    as (r & rest & o & Hret & Hsc & _).
  now exists r, rest.
Defined.

(** ** LLMAgent: the sources returned with an answer *)

Section QueryFacts.

Variable embed : str -> option Vector.
Variable _chunk_text : str -> str.
Variable windows : bool.
Variable Context : Type.
Variable _build_prompt : str -> option Context -> list RetrievalResult -> str.
Variable complete : str -> option str.

Lemma dict_get_source (n : str) :
  Agent.dict_get [(s2l "source", n)] (s2l "source") = Some n.
Proof.
  cbn [Agent.dict_get].
  destruct (list_eq_dec ascii_dec (s2l "source") (s2l "source"));
    [reflexivity|congruence].
Qed.

Lemma source_text_length (doc : RetrievalResult) :
  len (slice (text doc) 0 200 ++ s2l "...") <= 203.
Proof.
  pose proof (slice_length (text doc) 0 200) as Hs.
  unfold len in *. rewrite length_app. cbn [s2l list_ascii_of_string length].
  unfold clamp_slice in Hs. cbn [Z.ltb Z.compare] in Hs.
  assert (0 <= Z.of_nat (length (text doc))) by lia. lia.
Qed.

(** The metadata a run of [index_directory] leaves: what was there, then
    one [source] object per file it got through. *)
Lemma index_directory_metadata (files : list PdfFile) :
  forall (self self' : RAGManager) (disk disk' : Store) (r : result unit),
    RAG.index_directory embed _chunk_text windows self disk files
      = (self', disk', r) ->
    exists done,
      incl done files
      /\ metadata self'
         = metadata self ++ map (fun f => [(s2l "source", name f)]) done.
Proof.
  induction files as [|f files IH]; intros self self' disk disk' r Hrun.
  - cbn in Hrun. inversion Hrun; subst. exists [].
    split; [apply incl_refl | now rewrite app_nil_r].
  - cbn [RAG.index_directory] in Hrun.
    destruct (RAG.add_documents embed _chunk_text windows self disk
                [join [LF] (pages f)] [[(s2l "source", name f)]])
      as [[self1 disk1] r1] eqn:Hadd.
    pose proof (add_documents_outcome _ _ _ _ _ _ _ _ _ _ Hadd) as Hg.
    destruct r1 as [[]|e].
    + destruct Hg as (_ & Hm1 & _).
      destruct (IH _ _ _ _ _ Hrun) as (done & Hincl & Hm).
      exists (f :: done). split.
      * intros x [->|Hx]; [now left | right; now apply Hincl].
      * rewrite Hm, Hm1, <- app_assoc. reflexivity.
    + inversion Hrun; subst. destruct Hg as (_ & Hm1 & _).
      exists []. split; [intros x []|]. now rewrite app_nil_r.
Qed.

(** X15. For a manager filled by [index_directory] alone, [query] never
    fails on a missing ["source"] key. When it returns, the answer is the
    completion of the prompt built from the retrieved documents, and there
    is one source per retrieved document, in order: its score, the first 200
    characters of its text followed by ["..."] (at most 203 characters), and
    the file name of the PDF the document came from. *)
Theorem query_sources_of_indexed_pdfs (files : list PdfFile)
    (self : RAGManager) (disk : Store) (r : result unit)
    (question : str) (context : option Context) :
  RAG.index_directory embed _chunk_text windows (mkRAG None [] [])
    empty_store files = (self, disk, r) ->
  match Agent.query embed Context _build_prompt complete self question
          context with
  | inr Agent.KeyError => False
  | inr _ => True
  | inl (answer, sources) =>
      exists rag_docs,
        retrieve embed self question 3 = inl rag_docs
        /\ complete (_build_prompt question context rag_docs) = Some answer
        /\ Forall2 (fun doc s =>
              Agent.source_score s = score doc
              /\ Agent.source_text s = slice (text doc) 0 200 ++ s2l "..."
              /\ len (Agent.source_text s) <= 203
              /\ exists f, In f files
                           /\ meta doc = [(s2l "source", name f)]
                           /\ Agent.source_name s = name f)
             rag_docs sources
  end.
Proof.
  intros Hrun.
  destruct (index_directory_metadata files _ _ _ _ _ Hrun)
    as (done & Hincl & Hmeta).
  cbn [metadata app] in Hmeta.
  unfold Agent.query.
  destruct (retrieve embed self question 3) as [rag_docs|e] eqn:Hret;
    [|exact I].
  destruct (complete (_build_prompt question context rag_docs))
    as [answer|] eqn:Hans; [|exact I].
  assert (Hdocs : Forall (fun doc => exists f, In f files
                            /\ meta doc = [(s2l "source", name f)]) rag_docs).
  { unfold retrieve in Hret.
    destruct (embed question) as [qv|]; [|discriminate].
    destruct (index self) as [ix|]; [|discriminate].
    pose proof (retrieve_hits_assembled self _ _ Hret) as Hasm.
    clear Hret Hans.
    induction Hasm as [|h doc hits docs (_ & Hm & _) _ IH].
    - constructor.
    - constructor; [|exact IH].
      apply nth_error_In in Hm. rewrite Hmeta in Hm.
      apply in_map_iff in Hm. destruct Hm as (f & Hf & Hin).
      exists f. split; [now apply Hincl | now symmetry]. }
  assert (Hsrc : exists sources,
            Agent.sources_of rag_docs = Some sources
            /\ Forall2 (fun doc s =>
                 Agent.source_score s = score doc
                 /\ Agent.source_text s = slice (text doc) 0 200 ++ s2l "..."
                 /\ len (Agent.source_text s) <= 203
                 /\ exists f, In f files
                              /\ meta doc = [(s2l "source", name f)]
                              /\ Agent.source_name s = name f)
                 rag_docs sources).
  { clear Hret Hans.
    induction Hdocs as [|doc docs (f & Hf & Hm) _ (ss & Hss & Hall)].
    - exists []. split; [reflexivity|constructor].
    - cbn [Agent.sources_of]. unfold Agent.source_of.
      rewrite Hm, dict_get_source, Hss.
      eexists. split; [reflexivity|]. constructor; [|exact Hall].
      cbn [Agent.source_score Agent.source_text Agent.source_name].
      split; [reflexivity|]. split; [reflexivity|].
      split; [apply source_text_length|]. now exists f. }
  destruct Hsrc as (sources & -> & Hall).
  exists rag_docs. repeat split; try assumption; reflexivity.
Qed.

End QueryFacts.

Lemma query_sources_of_indexed_pdfs_witness :
  exists self disk r,
    RAG.index_directory Samples.stub_embed Samples.whole_chunk false
      (mkRAG None [] []) empty_store [Samples.old_pdf] = (self, disk, r)
    /\ Agent.query Samples.stub_embed unit (fun q _ _ => q) (@Some str) self
         (s2l "old manual") None
       <> inr Agent.KeyError.
Proof.
  destruct (RAG.index_directory Samples.stub_embed Samples.whole_chunk false
              (mkRAG None [] []) empty_store [Samples.old_pdf])
    as [[self disk] r] eqn:Hrun.
  exists self, disk, r. split; [reflexivity|].
  pose proof (query_sources_of_indexed_pdfs Samples.stub_embed
                Samples.whole_chunk false unit (fun q _ _ => q) (@Some str)
                [Samples.old_pdf] self disk r (s2l "old manual") None Hrun)
    as H.
  destruct (Agent.query Samples.stub_embed unit (fun q _ _ => q) (@Some str)
              self (s2l "old manual") None) as [[answer sources]|[e| |]];
    try discriminate. contradiction.
Defined.

(** ** The desktop client's data model *)

Section DataModelFacts.

Import Dto.

Variable QDateTime : Type.
Variable null_time : QDateTime.
Variable sort_measurements :
  list (Measurement QDateTime) -> list (Measurement QDateTime).
Variable sort_events : list (Event QDateTime) -> list (Event QDateTime).

Lemma chat_history_step (history : list (ChatMessage QDateTime))
    (message : ChatMessage QDateTime) :
  (length history <= 100)%nat ->
  (if (100 <? length (history ++ [message]))%nat
   then tl (history ++ [message]) else history ++ [message])
  = skipn (length (history ++ [message]) - 100) (history ++ [message]).
Proof.
  intros Hlen. rewrite length_app. cbn [length].
  destruct (Nat.ltb_spec 100 (length history + 1)) as [Hfull|Hroom].
  - replace (length history + 1 - 100)%nat with 1%nat by lia.
    now destruct (history ++ [message]).
  - replace (length history + 1 - 100)%nat with 0%nat by lia. reflexivity.
Qed.

(** X16. The chat history is a window on the last 100 messages: starting
    from a history of at most 100 messages, after any number of
    [addChatMessage] calls it holds the last 100 of all messages in order
    (all of them if there are fewer), and one [chatMessageAdded] signal was
    emitted per call. *)
Theorem chat_history_keeps_last_100
    (messages : list (ChatMessage QDateTime)) (dm : DataModel.t QDateTime) :
  (length (DataModel.m_chatHistory _ dm) <= 100)%nat ->
  let dm' := fold_left (fun d m => DataModel.addChatMessage _ m d) messages dm in
  let all := DataModel.m_chatHistory _ dm ++ messages in
  DataModel.m_chatHistory _ dm' = skipn (length all - 100) all
  /\ (length (DataModel.m_chatHistory _ dm') <= 100)%nat
  /\ DataModel.emitted _ dm'
     = DataModel.emitted _ dm ++ map (DataModel.chatMessageAdded _) messages.
Proof.
  revert dm. induction messages as [|m messages IH]; intros dm Hlen; cbv zeta.
  - cbn [fold_left map]. rewrite !app_nil_r.
    replace (length (DataModel.m_chatHistory _ dm) - 100)%nat with 0%nat
      by lia.
    now repeat split.
  - cbn [fold_left].
    set (dm1 := DataModel.addChatMessage _ m dm).
    assert (H1 : DataModel.m_chatHistory _ dm1
                 = skipn (length (DataModel.m_chatHistory _ dm ++ [m]) - 100)
                     (DataModel.m_chatHistory _ dm ++ [m])).
    { unfold dm1, DataModel.addChatMessage, DataModel.emit.
      cbn [DataModel.m_chatHistory]. now apply chat_history_step. }
    assert (Hlen1 : (length (DataModel.m_chatHistory _ dm1) <= 100)%nat).
    { rewrite H1, length_skipn, length_app. cbn [length]. lia. }
    assert (He1 : DataModel.emitted _ dm1
                  = DataModel.emitted _ dm ++ [DataModel.chatMessageAdded _ m])
      by reflexivity.
    destruct (IH dm1 Hlen1) as (Hh & Hl & He). cbv zeta in Hh, Hl, He.
    split; [|split; [exact Hl|]].
    + rewrite Hh, H1.
      set (X := DataModel.m_chatHistory _ dm ++ [m]).
      assert (HX : (length X <= 101)%nat)
        by (unfold X; rewrite length_app; cbn [length]; lia).
      replace (DataModel.m_chatHistory _ dm ++ m :: messages)
        with (X ++ messages)
        by (unfold X; now rewrite <- app_assoc).
      replace (skipn (length X - 100) X ++ messages)
        with (skipn (length X - 100) (X ++ messages)).
      * rewrite skipn_skipn. f_equal.
        rewrite length_skipn, !length_app. lia.
      * rewrite skipn_app.
        replace (length X - 100 - length X)%nat with 0%nat by lia.
        reflexivity.
    + rewrite He, He1, <- app_assoc. reflexivity.
Qed.

Lemma wrap32_small (z : Z) : - 2 ^ 31 <= z < 2 ^ 31 -> DataModel.wrap32 z = z.
Proof.
  intros Hz. unfold DataModel.wrap32.
  rewrite Z.mod_small by lia. lia.
Qed.

(** X17. As long as the event cache has fewer than 2^31 entries,
    [getCriticalEventCount] is the number of events [getEvents] returns for
    the same machine with minimum level [Error]. *)
Theorem critical_count_is_error_filter (machineId : Z)
    (dm : DataModel.t QDateTime) :
  Z.of_nat (length (DataModel.m_events _ dm)) < 2 ^ 31 ->
  DataModel.getCriticalEventCount _ machineId dm
  = Z.of_nat (length (DataModel.getEvents _ machineId Error dm)).
Proof.
  intros Hsize.
  unfold DataModel.getCriticalEventCount, DataModel.getEvents.
  assert (Hgen : forall (events : list (Event QDateTime)) (count : Z),
            0 <= count ->
            count + Z.of_nat (length events) < 2 ^ 31 ->
            fold_left
              (fun count event =>
                 if ((machineId <? 0) || (event_machineId event =? machineId))
                    && match event_level event with
                       | Critical | Error => true
                       | _ => false
                       end
                 then DataModel.wrap32 (count + 1)
                 else count) events count
            = count
              + Z.of_nat
                  (length
                     (filter
                        (fun event =>
                           ((machineId <? 0)
                            || (event_machineId event =? machineId))
                           && (level_value Error
                               <=? level_value (event_level event)))
                        events))).
  { induction events as [|e events IH]; intros count Hc Hb.
    - cbn. lia.
    - cbn [fold_left filter length] in *.
      assert (Hlvl : match event_level e with
                     | Critical | Error => true
                     | _ => false
                     end
                     = (level_value Error <=? level_value (event_level e)))
        by (now destruct (event_level e)).
      rewrite Hlvl.
      destruct (((machineId <? 0) || (event_machineId e =? machineId))
                && (level_value Error <=? level_value (event_level e))).
      + rewrite wrap32_small by lia.
        rewrite IH by lia. cbn [length]. lia.
      + apply IH; lia. }
  rewrite Hgen; lia.
Qed.

(** X18. With unique machine ids, [getMachine] after [setMachines] returns
    each machine for its own id, and the default-constructed machine (id 0,
    empty name) for an id that no machine has. *)
Theorem getMachine_after_setMachines (machines : list (Machine QDateTime))
    (dm : DataModel.t QDateTime) :
  NoDup (map machine_id machines) ->
  (forall machine, In machine machines ->
     DataModel.getMachine _ null_time (machine_id machine)
       (DataModel.setMachines _ machines dm) = machine)
  /\ (forall id, ~ In id (map machine_id machines) ->
        DataModel.getMachine _ null_time id
          (DataModel.setMachines _ machines dm)
        = DataModel.Machine0 _ null_time).
Proof.
  intros Hnd. unfold DataModel.getMachine, DataModel.setMachines,
    DataModel.emit. cbn [DataModel.m_machines]. split.
  - intros machine Hin. induction machines as [|x machines IH];
      [destruct Hin|].
    inversion Hnd as [|? ? Hx Hnd']; subst. cbn [find].
    destruct (Z.eqb_spec (machine_id x) (machine_id machine)) as [Heq|Hne].
    + destruct Hin as [->|Hin]; [reflexivity|].
      exfalso. apply Hx. rewrite Heq. now apply in_map.
    + destruct Hin as [->|Hin]; [congruence|]. now apply IH.
  - intros id Hid. induction machines as [|x machines IH]; [reflexivity|].
    inversion Hnd as [|? ? Hx Hnd']; subst. cbn [find].
    destruct (Z.eqb_spec (machine_id x) id) as [Heq|Hne].
    + exfalso. apply Hid. left. exact Heq.
    + apply IH; [exact Hnd'|]. intros H. apply Hid. now right.
Qed.

End DataModelFacts.

(** ** The caches of the data model *)

Section CacheFacts.

Import Dto.

Variable QDateTime : Type.
Variable null_time : QDateTime.

(** [a > b] on time stamps. *)
Variable after : QDateTime -> QDateTime -> bool.

Variable sort_measurements :
  list (Measurement QDateTime) -> list (Measurement QDateTime).
Variable sort_events : list (Event QDateTime) -> list (Event QDateTime).

(** What [std::sort] guarantees: the same elements, and no element newer
    than one placed before it. *)
Hypothesis sort_measurements_perm :
  forall l, Permutation (sort_measurements l) l.
Hypothesis sort_measurements_sorted :
  forall l,
    StronglySorted
      (fun a b => after (meas_timestamp b) (meas_timestamp a) = false)
      (sort_measurements l).
Hypothesis sort_events_perm : forall l, Permutation (sort_events l) l.
Hypothesis sort_events_sorted :
  forall l,
    StronglySorted
      (fun a b => after (event_timestamp b) (event_timestamp a) = false)
      (sort_events l).

Lemma NoDup_firstn {A : Type} (n : nat) (l : list A) :
  NoDup l -> NoDup (firstn n l).
Proof.
  intros Hnd. rewrite <- (firstn_skipn n l) in Hnd.
  now apply NoDup_app_remove_r in Hnd.
Qed.

Lemma cap_length {A : Type} (n : nat) (l : list A) :
  (length (if (n <? length l)%nat then firstn n l else l) <= n)%nat.
Proof.
  destruct (Nat.ltb_spec n (length l)); [rewrite length_firstn|]; lia.
Qed.

Lemma cap_In {A : Type} (n : nat) (l : list A) (x : A) :
  In x (if (n <? length l)%nat then firstn n l else l) -> In x l.
Proof.
  destruct (n <? length l)%nat; [apply firstn_In | auto].
Qed.

Lemma cap_NoDup {A B : Type} (f : A -> B) (n : nat) (l : list A) :
  NoDup (map f l) ->
  NoDup (map f (if (n <? length l)%nat then firstn n l else l)).
Proof.
  intros Hnd. destruct (n <? length l)%nat; [|exact Hnd].
  rewrite <- firstn_map. now apply NoDup_firstn.
Qed.

Lemma cap_sorted {A : Type} (R : A -> A -> Prop) (n : nat) (l : list A) :
  StronglySorted R l ->
  StronglySorted R (if (n <? length l)%nat then firstn n l else l).
Proof.
  intros Hs. destruct (n <? length l)%nat; [now apply firstn_sorted|exact Hs].
Qed.

(** *** Events *)

Lemma merge_event_facts (cached : list (Event QDateTime))
    (e : Event QDateTime) :
  NoDup (map event_id cached) ->
  NoDup (map event_id (DataModel.merge_event _ cached e))
  /\ (forall x, In x cached -> In x (DataModel.merge_event _ cached e))
  /\ (forall x, In x (DataModel.merge_event _ cached e) ->
        In x cached \/ x = e /\ ~ In (event_id e) (map event_id cached)).
Proof.
  intros Hnd. unfold DataModel.merge_event.
  destruct (existsb (fun existing => event_id existing =? event_id e) cached)
    eqn:E.
  - repeat split; auto.
  - assert (Hfresh : ~ In (event_id e) (map event_id cached)).
    { intros Hin. apply in_map_iff in Hin. destruct Hin as (y & Hy & Hin).
      assert (Ht : existsb (fun existing => event_id existing =? event_id e)
                     cached = true).
      { apply existsb_exists. exists y. split; [exact Hin|].
        now apply Z.eqb_eq. }
      congruence. }
    split; [|split].
    + rewrite map_app. cbn [map].
      apply NoDup_app; [exact Hnd | repeat constructor; intros [] |].
      intros x Hx [<-|[]]. contradiction.
    + intros x Hx. apply in_or_app. now left.
    + intros x Hx. apply in_app_or in Hx.
      destruct Hx as [Hx|[<-|[]]]; [now left | right; now split].
Qed.

Lemma merge_events_facts (events : list (Event QDateTime)) :
  forall cached,
    NoDup (map event_id cached) ->
    NoDup (map event_id (fold_left (DataModel.merge_event _) events cached))
    /\ (forall x, In x cached ->
          In x (fold_left (DataModel.merge_event _) events cached))
    /\ (forall x, In x (fold_left (DataModel.merge_event _) events cached) ->
          In x cached
          \/ In x events /\ ~ In (event_id x) (map event_id cached)).
Proof.
  induction events as [|e events IH]; intros cached Hnd; cbn [fold_left].
  - repeat split; auto.
  - destruct (merge_event_facts cached e Hnd) as (Hnd1 & Hkeep1 & Hfrom1).
    destruct (IH _ Hnd1) as (Hnd' & Hkeep' & Hfrom').
    split; [exact Hnd'|]. split; [auto|].
    intros x Hx. destruct (Hfrom' x Hx) as [Hin|[Hin Hfresh]].
    + destruct (Hfrom1 x Hin) as [Hc|[-> Hf]]; [now left|].
      right. split; [now left | exact Hf].
    + right. split; [now right|].
      intros Hid. apply Hfresh. apply in_map_iff in Hid.
      destruct Hid as (y & Hy & Hiny). apply in_map_iff.
      exists y. split; [exact Hy | now apply Hkeep1].
Qed.

(** X19. [addEvents] keeps event ids unique, keeps at most 500 events,
    newest first, and never replaces a cached event: every event cached
    afterwards was cached before or is a new event whose id was not cached.
    One [eventsUpdated] signal is emitted. *)
Theorem addEvents_cache (events : list (Event QDateTime))
    (dm : DataModel.t QDateTime) :
  NoDup (map event_id (DataModel.m_events _ dm)) ->
  let dm' := DataModel.addEvents _ sort_events events dm in
  NoDup (map event_id (DataModel.m_events _ dm'))
  /\ (length (DataModel.m_events _ dm') <= 500)%nat
  /\ StronglySorted
       (fun a b => after (event_timestamp b) (event_timestamp a) = false)
       (DataModel.m_events _ dm')
  /\ (forall e, In e (DataModel.m_events _ dm') ->
        In e (DataModel.m_events _ dm)
        \/ In e events
           /\ ~ In (event_id e) (map event_id (DataModel.m_events _ dm)))
  /\ DataModel.emitted _ dm'
     = DataModel.emitted _ dm ++ [DataModel.eventsUpdated _].
Proof.
  intros Hnd dm'. unfold dm', DataModel.addEvents, DataModel.emit.
  cbn [DataModel.m_events DataModel.emitted].
  destruct (merge_events_facts events _ Hnd) as (Hnd' & _ & Hfrom).
  set (merged := fold_left (DataModel.merge_event _) events
                   (DataModel.m_events _ dm)) in *.
  split; [|split; [|split; [|split]]].
  - apply cap_NoDup.
    eapply Permutation_NoDup; [|exact Hnd'].
    apply Permutation_map, Permutation_sym, sort_events_perm.
  - apply cap_length.
  - apply cap_sorted, sort_events_sorted.
  - intros e He. apply cap_In in He. apply Hfrom.
    eapply Permutation_in; [apply sort_events_perm|exact He].
  - reflexivity.
Qed.

End CacheFacts.

Section MeasurementFacts.

Import Dto.

Variable QDateTime : Type.
Variable null_time : QDateTime.
Variable after : QDateTime -> QDateTime -> bool.
Variable sort_measurements :
  list (Measurement QDateTime) -> list (Measurement QDateTime).

Hypothesis sort_measurements_perm :
  forall l, Permutation (sort_measurements l) l.
Hypothesis sort_measurements_sorted :
  forall l,
    StronglySorted
      (fun a b => after (meas_timestamp b) (meas_timestamp a) = false)
      (sort_measurements l).

Lemma NoDup_map_inj {A B : Type} (f : A -> B) (l : list A) (a b : A) :
  NoDup (map f l) -> In a l -> In b l -> f a = f b -> a = b.
Proof.
  induction l as [|x l IH]; intros Hnd Ha Hb Hab; [destruct Ha|].
  inversion Hnd as [|? ? Hx Hnd']; subst.
  destruct Ha as [->|Ha], Hb as [->|Hb]; try reflexivity.
  - exfalso. apply Hx. rewrite Hab. now apply in_map.
  - exfalso. apply Hx. rewrite <- Hab. now apply in_map.
  - now apply IH.
Qed.

Lemma update_existing_some (existing updated : list (Measurement QDateTime))
    (x : Measurement QDateTime) :
  DataModel.update_existing _ existing x = Some updated ->
  map meas_id updated = map meas_id existing
  /\ In x updated
  /\ (forall m, In m updated -> m = x \/ In m existing).
Proof.
  revert updated. induction existing as [|y existing IH]; intros updated Hu;
    cbn [DataModel.update_existing] in Hu; [discriminate|].
  destruct (Z.eqb_spec (meas_id y) (meas_id x)) as [Heq|Hne].
  - inversion Hu; subst. cbn [map]. rewrite Heq.
    split; [reflexivity|]. split; [now left|].
    intros m [<-|Hm]; [now left | right; now right].
  - destruct (DataModel.update_existing _ existing x) as [rest|];
      [|discriminate].
    inversion Hu; subst. destruct (IH rest eq_refl) as (Hids & Hin & Hfrom).
    cbn [map]. rewrite Hids. split; [reflexivity|]. split; [now right|].
    intros m [<-|Hm]; [right; now left|].
    destruct (Hfrom m Hm); [now left | right; now right].
Qed.

Lemma update_existing_none (existing : list (Measurement QDateTime))
    (x : Measurement QDateTime) :
  DataModel.update_existing _ existing x = None ->
  ~ In (meas_id x) (map meas_id existing).
Proof.
  induction existing as [|y existing IH]; intros Hu; [intros []|].
  cbn [DataModel.update_existing] in Hu.
  destruct (Z.eqb_spec (meas_id y) (meas_id x)) as [Heq|Hne]; [discriminate|].
  destruct (DataModel.update_existing _ existing x); [discriminate|].
  intros [H|H]; [congruence | now apply IH].
Qed.

Lemma merge_measurement_facts (cur : list (Measurement QDateTime))
    (x : Measurement QDateTime) :
  NoDup (map meas_id cur) ->
  NoDup (map meas_id (DataModel.merge_measurement _ cur x))
  /\ In x (DataModel.merge_measurement _ cur x)
  /\ (forall m, In m (DataModel.merge_measurement _ cur x) ->
        m = x \/ In m cur).
Proof.
  intros Hnd. unfold DataModel.merge_measurement.
  destruct (DataModel.update_existing _ cur x) as [updated|] eqn:E.
  - destruct (update_existing_some _ _ _ E) as (Hids & Hin & Hfrom).
    rewrite Hids. now repeat split.
  - apply update_existing_none in E. split; [|split].
    + rewrite map_app. cbn [map].
      apply NoDup_app; [exact Hnd | repeat constructor; intros [] |].
      intros i Hi [<-|[]]. contradiction.
    + apply in_or_app. right. now left.
    + intros m Hm. apply in_app_or in Hm.
      destruct Hm as [Hm|[<-|[]]]; [now right | now left].
Qed.

Lemma merge_measurements_facts (new : list (Measurement QDateTime)) :
  forall cur,
    NoDup (map meas_id cur) ->
    let merged := fold_left (DataModel.merge_measurement _) new cur in
    NoDup (map meas_id merged)
    /\ (forall m, In m merged -> In m cur \/ In m new)
    /\ (forall m, In m merged -> In (meas_id m) (map meas_id new) ->
          In m new).
Proof.
  induction new as [|x new IH]; intros cur Hnd; cbn [fold_left]; cbv zeta.
  - split; [exact Hnd|]. split; [now left | intros m _ []].
  - destruct (merge_measurement_facts cur x Hnd) as (Hnd1 & Hx1 & Hfrom1).
    destruct (IH _ Hnd1) as (Hnd' & Hfrom' & Hnew'). cbv zeta in *.
    split; [exact Hnd'|]. split.
    + intros m Hm. destruct (Hfrom' m Hm) as [H1|H1]; [|right; now right].
      destruct (Hfrom1 m H1) as [->|Hc]; [right; now left | now left].
    + intros m Hm Hid.
      destruct (in_dec Z.eq_dec (meas_id m) (map meas_id new)) as [Hr|Hr].
      * right. now apply Hnew'.
      * destruct Hid as [Hid|Hid]; [|contradiction].
        destruct (Hfrom' m Hm) as [H1|H1]; [|now right].
        left. symmetry.
        now apply (NoDup_map_inj meas_id _ m x Hnd1 H1 Hx1).
Qed.

(** X20. [addMeasurements] keeps the measurement ids of a machine's cache
    unique, keeps at most 1000 measurements, newest first, and leaves the
    caches of other machines alone. What is cached afterwards was cached
    before or is new, and a cached measurement whose id occurs among the new
    ones is one of the new ones: a measurement sent again replaces its
    cached copy. *)
Theorem addMeasurements_cache (machineId : Z)
    (measurements : list (Measurement QDateTime))
    (dm : DataModel.t QDateTime) :
  NoDup (map meas_id (DataModel.m_measurementsByMachine _ dm machineId)) ->
  let dm' := DataModel.addMeasurements _ sort_measurements machineId
               measurements dm in
  let cache := DataModel.m_measurementsByMachine _ dm' machineId in
  NoDup (map meas_id cache)
  /\ (length cache <= 1000)%nat
  /\ StronglySorted
       (fun a b => after (meas_timestamp b) (meas_timestamp a) = false) cache
  /\ (forall m, In m cache ->
        In m (DataModel.m_measurementsByMachine _ dm machineId)
        \/ In m measurements)
  /\ (forall m, In m cache -> In (meas_id m) (map meas_id measurements) ->
        In m measurements)
  /\ (forall other, other <> machineId ->
        DataModel.m_measurementsByMachine _ dm' other
        = DataModel.m_measurementsByMachine _ dm other).
Proof.
  intros Hnd dm' cache.
  unfold cache, dm', DataModel.addMeasurements, DataModel.emit.
  cbn [DataModel.m_measurementsByMachine]. rewrite Z.eqb_refl.
  destruct (merge_measurements_facts measurements _ Hnd)
    as (Hnd' & Hfrom & Hnew). cbv zeta in *.
  set (merged := fold_left (DataModel.merge_measurement _) measurements
                   (DataModel.m_measurementsByMachine _ dm machineId)) in *.
  split; [|split; [|split; [|split; [|split]]]].
  - apply cap_NoDup.
    eapply Permutation_NoDup; [|exact Hnd'].
    apply Permutation_map, Permutation_sym, sort_measurements_perm.
  - apply cap_length.
  - apply cap_sorted, sort_measurements_sorted.
  - intros m Hm. apply cap_In in Hm. apply Hfrom.
    eapply Permutation_in; [apply sort_measurements_perm|exact Hm].
  - intros m Hm Hid. apply cap_In in Hm. apply Hnew; [|exact Hid].
    eapply Permutation_in; [apply sort_measurements_perm|exact Hm].
  - intros other Hne. destruct (Z.eqb_spec other machineId); congruence.
Qed.

Lemma filter_sorted {A : Type} (R : A -> A -> Prop) (p : A -> bool)
    (l : list A) :
  StronglySorted R l -> StronglySorted R (filter p l).
Proof.
  induction 1 as [|x l Hs IH Hall]; cbn [filter]; [constructor|].
  destruct (p x); [|exact IH]. constructor; [exact IH|].
  rewrite Forall_forall in *. intros y Hy.
  apply filter_In in Hy. now apply Hall.
Qed.

(** X21. After [addMeasurements] for a machine, [getLatestMeasurement] for
    that machine and any sensor type returns a measurement that
    [getMeasurements] lists and that none of the listed ones is newer than;
    when nothing is listed it returns the default-constructed measurement
    (id 0). *)
Theorem latest_measurement_is_newest (machineId : Z) (sensorType : str)
    (measurements : list (Measurement QDateTime))
    (dm : DataModel.t QDateTime) :
  let dm' := DataModel.addMeasurements _ sort_measurements machineId
               measurements dm in
  let listed := DataModel.getMeasurements _ machineId sensorType dm' in
  let latest :=
    DataModel.getLatestMeasurement _ null_time machineId sensorType dm' in
  (listed = [] /\ latest = DataModel.Measurement0 _ null_time
   \/ In latest listed)
  /\ forall m, In m listed ->
       m = latest
       \/ after (meas_timestamp m) (meas_timestamp latest) = false.
Proof.
  intros dm' listed latest.
  assert (Hsorted : StronglySorted
            (fun a b => after (meas_timestamp b) (meas_timestamp a) = false)
            listed).
  { unfold listed, DataModel.getMeasurements, dm', DataModel.addMeasurements,
      DataModel.emit.
    cbn [DataModel.m_measurementsByMachine]. rewrite Z.eqb_refl.
    destruct sensorType; [|apply filter_sorted];
      apply cap_sorted, sort_measurements_sorted. }
  unfold latest, DataModel.getLatestMeasurement. fold dm'. fold listed.
  destruct listed as [|first rest]; [split; [now left | intros m []]|].
  split; [right; now left|].
  intros m [<-|Hm]; [now left|right].
  inversion Hsorted as [|? ? _ Hall]; subst.
  rewrite Forall_forall in Hall. now apply Hall.
Qed.

End MeasurementFacts.

(** ** Concrete runs of the data model *)

Section SampleSort.

Context {A : Type} (stamp : A -> Z).

Lemma insert_newest_perm (x : A) (l : list A) :
  Permutation (Samples.insert_newest stamp x l) (x :: l).
Proof.
  induction l as [|y l IH]; cbn [Samples.insert_newest]; [reflexivity|].
  destruct (stamp y <? stamp x); [reflexivity|].
  rewrite IH. apply perm_swap.
Qed.

Lemma newest_first_perm (l : list A) :
  Permutation (Samples.newest_first stamp l) l.
Proof.
  induction l as [|x l IH]; [reflexivity|].
  cbn [Samples.newest_first fold_right]. rewrite insert_newest_perm.
  now constructor.
Qed.

Lemma insert_newest_sorted (x : A) (l : list A) :
  StronglySorted (fun a b => Samples.later (stamp b) (stamp a) = false) l ->
  StronglySorted (fun a b => Samples.later (stamp b) (stamp a) = false)
    (Samples.insert_newest stamp x l).
Proof.
  unfold Samples.later.
  induction 1 as [|y l Hs IH Hall]; cbn [Samples.insert_newest].
  - repeat constructor.
  - pose proof Hall as Hall'. rewrite Forall_forall in Hall.
    destruct (Z.ltb_spec (stamp y) (stamp x)) as [Hlt|Hge].
    + constructor; [constructor; assumption|].
      rewrite Forall_forall. intros z [<-|Hz]; [apply Z.ltb_ge; lia|].
      specialize (Hall z Hz). apply Z.ltb_ge in Hall. apply Z.ltb_ge. lia.
    + constructor; [exact IH|].
      rewrite Forall_forall. intros z Hz.
      apply (Permutation_in _ (insert_newest_perm x l)) in Hz.
      destruct Hz as [<-|Hz]; [now apply Z.ltb_ge | now apply Hall].
Qed.

Lemma newest_first_sorted (l : list A) :
  StronglySorted (fun a b => Samples.later (stamp b) (stamp a) = false)
    (Samples.newest_first stamp l).
Proof.
  induction l as [|x l IH]; [constructor|].
  cbn [Samples.newest_first fold_right]. now apply insert_newest_sorted.
Qed.

End SampleSort.

Section DataModelRuns.

Import Dto Samples.

Lemma chat_history_keeps_last_100_witness :
  let m1 := mkChatMessage User (s2l "hello") 1 [] in
  let m2 := mkChatMessage Assistant (s2l "hi") 2 [] in
  (length (DataModel.m_chatHistory _ (DataModel.new Z)) <= 100)%nat
  /\ DataModel.m_chatHistory _
       (fold_left (fun d m => DataModel.addChatMessage _ m d) [m1; m2]
          (DataModel.new Z))
     = [m1; m2].
Proof.
  cbv zeta. split; [cbn; lia|].
  destruct (chat_history_keeps_last_100 Z
              [mkChatMessage User (s2l "hello") 1 [];
               mkChatMessage Assistant (s2l "hi") 2 []]
              (DataModel.new Z)) as (Hh & _); [cbn; lia|].
  exact Hh.
Defined.

Lemma critical_count_is_error_filter_witness :
  let dm := DataModel.mk Z [] (fun _ => [])
              [alarm 1 10 Critical; alarm 2 20 Warning; alarm 3 30 Error]
              [] (-1) [] in
  Z.of_nat (length (DataModel.m_events _ dm)) < 2 ^ 31
  /\ DataModel.getCriticalEventCount _ 1 dm = 2.
Proof.
  cbv zeta. split; [cbn; lia|].
  rewrite critical_count_is_error_filter; [reflexivity | cbn; lia].
Defined.

Lemma getMachine_after_setMachines_witness :
  let a := mkMachine 1 (s2l "CNC-Mill-01") (s2l "CNC") (s2l "Halle 1") 0 in
  let b := mkMachine 2 (s2l "Press-02") (s2l "Press") (s2l "Halle 2") 0 in
  NoDup (map machine_id [a; b])
  /\ DataModel.getMachine _ 0 2 (DataModel.setMachines _ [a; b] (DataModel.new Z))
     = b.
Proof.
  cbv zeta.
  assert (Hnd : NoDup (map (@machine_id Z)
                         [mkMachine 1 (s2l "CNC-Mill-01") (s2l "CNC")
                            (s2l "Halle 1") 0;
                          mkMachine 2 (s2l "Press-02") (s2l "Press")
                            (s2l "Halle 2") 0])).
  { cbn. repeat constructor; cbn; intuition discriminate. }
  split; [exact Hnd|].
  destruct (getMachine_after_setMachines Z 0 _ (DataModel.new Z) Hnd)
    as [Hfound _].
  apply (Hfound (mkMachine 2 (s2l "Press-02") (s2l "Press") (s2l "Halle 2") 0)).
  right. now left.
Defined.

Lemma addEvents_cache_witness :
  NoDup (map event_id (DataModel.m_events _ (DataModel.new Z)))
  /\ (length (DataModel.m_events _
                (DataModel.addEvents _ (newest_first event_timestamp)
                   [alarm 1 10 Info; alarm 1 99 Critical; alarm 2 20 Error]
                   (DataModel.new Z))) <= 500)%nat.
Proof.
  split; [constructor|].
  destruct (addEvents_cache Z later (newest_first event_timestamp)
              (newest_first_perm event_timestamp)
              (newest_first_sorted event_timestamp)
              [alarm 1 10 Info; alarm 1 99 Critical; alarm 2 20 Error]
              (DataModel.new Z)) as (_ & Hlen & _); [constructor|].
  exact Hlen.
Defined.

Lemma addMeasurements_cache_witness :
  NoDup (map meas_id (DataModel.m_measurementsByMachine _ (DataModel.new Z) 1))
  /\ (length (DataModel.m_measurementsByMachine _
                (DataModel.addMeasurements _ (newest_first meas_timestamp) 1
                   [reading 1 10 "temperature"; reading 2 20 "pressure"]
                   (DataModel.new Z)) 1) <= 1000)%nat.
Proof.
  split; [constructor|].
  destruct (addMeasurements_cache Z later (newest_first meas_timestamp)
              (newest_first_perm meas_timestamp)
              (newest_first_sorted meas_timestamp) 1
              [reading 1 10 "temperature"; reading 2 20 "pressure"]
              (DataModel.new Z)) as (_ & Hlen & _); [constructor|].
  exact Hlen.
Defined.

Lemma latest_measurement_is_newest_witness :
  let dm' := DataModel.addMeasurements _ (newest_first meas_timestamp) 1
               [reading 1 10 "temperature"; reading 2 20 "temperature"]
               (DataModel.new Z) in
  let old := reading 1 10 "temperature" in
  In old (DataModel.getMeasurements _ 1 (s2l "temperature") dm')
  /\ (old = DataModel.getLatestMeasurement _ 0 1 (s2l "temperature") dm'
      \/ later (meas_timestamp old)
           (meas_timestamp
              (DataModel.getLatestMeasurement _ 0 1 (s2l "temperature") dm'))
         = false).
Proof.
  cbv zeta.
  assert (Hin : In (reading 1 10 "temperature")
                  (DataModel.getMeasurements _ 1 (s2l "temperature")
                     (DataModel.addMeasurements _
                        (newest_first meas_timestamp) 1
                        [reading 1 10 "temperature";
                         reading 2 20 "temperature"]
                        (DataModel.new Z))))
    by (vm_compute; right; now left).
  split; [exact Hin|].
  exact (proj2 (latest_measurement_is_newest Z 0 later
                  (newest_first meas_timestamp)
                  (newest_first_sorted meas_timestamp) 1 (s2l "temperature")
                  [reading 1 10 "temperature"; reading 2 20 "temperature"]
                  (DataModel.new Z)) _ Hin).
Defined.

End DataModelRuns.
